(** * SOCKS 6 server worker: a shallow embedding of serverworker.go and utils.go

    The embedding follows the Go sources function by function.  Network
    endpoints are explicit state ([Conn]): the environment's answers to
    [Read] and [Write] are scripts carried by the endpoint, and every
    [Write] and [Close] call is recorded in order.  Collaborators that live outside
    the two files (wire codec, authenticator, command handlers) appear as
    values of the [ServerWorker] record or as recorded events. *)

From Stdlib Require Import ZArith List String Ascii Bool Lia.
From stdpp Require Import gmap strings list fin_maps.
Import ListNotations.

Local Open Scope Z_scope.

(* ===================================================================== *)
(** ** Go errors *)
(* ===================================================================== *)

(** Dynamic type of the [Err] field of an [*os.SyscallError]. *)
Inductive SyscallErr : Type :=
| Errno (n : Z)          (* syscall.Errno *)
| NotErrno.              (* anything else *)

(** Dynamic type of the [Err] field of a [*net.OpError]. *)
Inductive OpErrInner : Type :=
| SyscallError (e : SyscallErr)   (* *os.SyscallError *)
| NotSyscallError.

(** The error values the two files create, compare or take apart.
    [syscall_Errno] is an error number returned as it is, [net_Error] any
    other implementation of [net.Error] that is not a [net.OpError]; the
    boolean of [net_Error] and [net_OpError] is what the value's
    [Timeout()] method answers.  A Go [error] that may be [nil] is an
    [option error]. *)
Inductive error : Type :=
| io_EOF
| io_ErrShortWrite
| io_ErrUnexpectedEOF
| context_Canceled
| context_DeadlineExceeded
| ErrVersionMismatch (Version : Z) (ConsumedBytes : list Z)
| ErrAddressTypeNotSupport
| errorString (s : string)
| syscall_Errno (n : Z)
| net_Error (timeout : bool)
| net_OpError (timeout : bool) (Err : OpErrInner).

(** [err == io.EOF] *)
Definition is_EOF (e : option error) : bool :=
  match e with Some io_EOF => true | _ => false end.

(* ===================================================================== *)
(** ** Wire messages (package message), as far as the worker builds them *)
(* ===================================================================== *)

Inductive ReplyCode : Type :=
| OperationReplySuccess
| OperationReplyServerFailure
| OperationReplyNotAllowedByRule
| OperationReplyNetworkUnreachable
| OperationReplyHostUnreachable
| OperationReplyConnectionRefused
| OperationReplyTTLExpired
| OperationReplyCommandNotSupported
| OperationReplyAddressNotSupported
| OperationReplyTimeout.

Inductive AuthenticationReplyType : Type :=
| AuthenticationReplySuccess
| AuthenticationReplyFail.

(** The two option kinds [setAuthMethodInfo] adds to a reply. *)
Inductive Option_ : Type :=
| AuthenticationMethodSelection (Method : Z)
| AuthenticationData (Method : Z) (Data : list Z).

Record AuthenticationReply : Type := mkAuthenticationReply {
  Type_ : AuthenticationReplyType;
  Options : list Option_
}.

(** [message.NewAuthenticationReplyWithType]: no options yet. *)
Definition NewAuthenticationReplyWithType (t : AuthenticationReplyType)
  : AuthenticationReply :=
  {| Type_ := t; Options := [] |}.

(** [message.NewAuthenticationReply]: the caller sets the type afterwards. *)
Definition NewAuthenticationReply : AuthenticationReply :=
  {| Type_ := AuthenticationReplySuccess; Options := [] |}.

(** [arep.Options.Add(o)] *)
Definition Options_Add (o : Option_) (arep : AuthenticationReply)
  : AuthenticationReply :=
  {| Type_ := Type_ arep; Options := Options arep ++ [o] |}.

(* ===================================================================== *)
(** ** Stream endpoints (net.Conn) *)
(* ===================================================================== *)

(** What a [Write] call was given.  The wire codec is outside the two
    files, so [x.Marshal()] is recorded as the message it marshals. *)
Inductive Payload : Type :=
| Raw (bs : list Z)
| AuthReplyMarshal (r : AuthenticationReply)
| OperationReplyMarshal (c : ReplyCode).

(** A call made on an endpoint, other than [Read]. *)
Inductive ConnCall : Type :=
| Wrote (p : Payload)
| Closed.

Record Conn : Type := mkConn {
  reads  : list (list Z * option error);
    (* answers to the coming Read calls: bytes delivered and error *)
  wrres  : list (option nat * option error);
    (* answers to the coming Write calls: byte count ([None]: all of
       them) and error; once used up, writes succeed in full *)
  calls : list ConnCall
    (* the Write and Close calls made so far, oldest first *)
}.

(** The arguments of the Write calls, oldest first. *)
Fixpoint written (l : list ConnCall) : list Payload :=
  match l with
  | [] => []
  | Wrote p :: rest => p :: written rest
  | Closed :: rest => written rest
  end.

Definition outbox (c : Conn) : list Payload := written (calls c).

(** The number of Close calls. *)
Fixpoint closed_count (l : list ConnCall) : nat :=
  match l with
  | [] => O
  | Wrote _ :: rest => closed_count rest
  | Closed :: rest => S (closed_count rest)
  end.

Definition closes (c : Conn) : nat := closed_count (calls c).

Definition payload_len (p : Payload) : option nat :=
  match p with Raw bs => Some (length bs) | _ => None end.

(** [conn.Write(p)]: returns [(n, err)] with [n = None] standing for the
    full length of a marshalled message. *)
Definition Conn_Write (p : Payload) (c : Conn)
  : (option nat * option error) * Conn :=
  match wrres c with
  | [] =>
      ((payload_len p, None),
       {| reads := reads c; wrres := []; calls := calls c ++ [Wrote p] |})
  | (n, e) :: rest =>
      ((match n with Some k => Some k | None => payload_len p end, e),
       {| reads := reads c; wrres := rest; calls := calls c ++ [Wrote p] |})
  end.

(** [conn.Write(p)] with both results dropped. *)
Definition Conn_Write_ (p : Payload) (c : Conn) : Conn := snd (Conn_Write p c).

(** [conn.Close()] *)
Definition Conn_Close (c : Conn) : Conn :=
  {| reads := reads c; wrres := wrres c; calls := calls c ++ [Closed] |}.

(** An endpoint on which nothing has happened yet. *)
Definition fresh_conn : Conn :=
  {| reads := []; wrres := []; calls := [] |}.

(* ===================================================================== *)
(** ** Version mismatch replies (serverworker.go, lines 142-185) *)
(* ===================================================================== *)

Definition CRLF : string := String "013"%char (String "010"%char EmptyString).
Definition DQUOTE : string := String "034"%char EmptyString.

(** [strings.Join(l, sep)] *)
Fixpoint strings_Join (l : list string) (sep : string) : string :=
  match l with
  | [] => EmptyString
  | [s] => s
  | s :: rest => (s ++ sep ++ strings_Join rest sep)%string
  end.

(** One decimal digit. *)
Definition digit_char (d : nat) : ascii := ascii_of_nat (48 + d).

(** [fmt.Sprintf("%d", n)] for a length; [fuel] bounds the digit count. *)
Fixpoint Sprintf_d_aux (fuel : nat) (n : nat) (acc : string) : string :=
  match fuel with
  | O => acc
  | S fuel' =>
      let acc' := String (digit_char (n mod 10)) acc in
      match (n / 10)%nat with
      | O => acc'
      | q => Sprintf_d_aux fuel' q acc'
      end
  end.

Definition Sprintf_d (n : nat) : string := Sprintf_d_aux (S n) n EmptyString.

Definition notHttpProxyMsg : string :=
  "This is a SOCKS 6 proxy, not a HTTP proxy".

Definition httpDoc : string :=
  strings_Join
    [ "<!DOCTYPE html>";
      "<html><head>";
      "<title>500 Internal Server Error</title>";
      "</head><body>";
      "<h1>500 Internal Server Error</h1>";
      "<p>" ++ notHttpProxyMsg ++ "</p>";
      "</body></html>" ]%string
    CRLF.

Definition httpReply : string :=
  strings_Join
    [ "HTTP/1.0 500 Internal Server Error";
      "Proxy-Status: SOCKS6Server; error=proxy_configuration_error; details="
        ++ DQUOTE ++ notHttpProxyMsg ++ DQUOTE;
      "Content-Type: text/html";
      "Content-Length: " ++ Sprintf_d (String.length httpDoc);
      "Connection: close";
      EmptyString;
      httpDoc ]%string
    CRLF.

(** [[]byte(s)] *)
Fixpoint bytes_of_string (s : string) : list Z :=
  match s with
  | EmptyString => []
  | String a rest => Z.of_nat (nat_of_ascii a) :: bytes_of_string rest
  end.

(** The first bytes for which the HTTP answer is sent:
    'c','C','d','D','g','G','h','H','o','O','p','P','t','T'. *)
Definition http_first_bytes : list Z :=
  [99; 67; 100; 68; 103; 71; 104; 72; 111; 79; 112; 80; 116; 84].

Definition is_http_first_byte (v : Z) : bool :=
  existsb (Z.eqb v) http_first_bytes.

(** [ReplyVersionSpecificError(ctx, ver, conn)], [ver.Version = v]. *)
Definition ReplyVersionSpecificError (v : Z) (conn : Conn) : Conn :=
  let conn' :=
    if v =? 4 then Conn_Write_ (Raw [0; 91]) conn
    else if v =? 5 then Conn_Write_ (Raw [5; 255]) conn
    else if v =? 6 then Conn_Write_ (Raw [6]) conn
    else if is_http_first_byte v
         then Conn_Write_ (Raw (bytes_of_string httpReply)) conn
    else Conn_Write_ (Raw [6]) conn in
  (* defer conn.Close() *)
  Conn_Close conn'.

(** *** Reading an HTTP reply back (what a client sees) *)

(** The bytes received, as text: one character for each byte. *)
Fixpoint string_of_bytes (b : list Z) : string :=
  match b with
  | [] => EmptyString
  | x :: rest => String (ascii_of_nat (Z.to_nat x)) (string_of_bytes rest)
  end.

(** Cut [s] at the first occurrence of [sep]: the text before it and the
    text after it. *)
Fixpoint cut_at (sep s : string) : option (string * string) :=
  if String.prefix sep s
  then Some (EmptyString, substring (String.length sep)
                                    (String.length s - String.length sep) s)
  else match s with
       | EmptyString => None
       | String a rest =>
           match cut_at sep rest with
           | Some (before, after) => Some (String a before, after)
           | None => None
           end
       end.

(** All the pieces of [s] between occurrences of [sep]. *)
Fixpoint split_on (fuel : nat) (sep s : string) : list string :=
  match fuel with
  | O => [s]
  | S fuel' =>
      match cut_at sep s with
      | Some (before, after) => before :: split_on fuel' sep after
      | None => [s]
      end
  end.

(** The status line: everything before the first CRLF. *)
Definition http_status_line (reply : string) : option string :=
  match cut_at CRLF reply with
  | Some (line, _) => Some line
  | None => None
  end.

(** Header block (status line removed) and body, separated by the first
    empty line. *)
Definition http_head_body (reply : string) : option (list string * string) :=
  match cut_at (CRLF ++ CRLF) reply with
  | Some (head, body) =>
      match split_on (String.length head) CRLF head with
      | _status :: headers => Some (headers, body)
      | [] => None
      end
  | None => None
  end.

(** Value of the first header called [name]. *)
Fixpoint http_header (name : string) (headers : list string) : option string :=
  match headers with
  | [] => None
  | h :: rest =>
      match cut_at ": " h with
      | Some (n, v) => if String.eqb n name then Some v else http_header name rest
      | None => http_header name rest
      end
  end.

(** Decimal numeral to number. *)
Fixpoint parse_decimal_aux (s : string) (acc : nat) : option nat :=
  match s with
  | EmptyString => Some acc
  | String a rest =>
      let c := nat_of_ascii a in
      if ((48 <=? c) && (c <=? 57))%nat
      then parse_decimal_aux rest (10 * acc + (c - 48))%nat
      else None
  end.

Definition parse_decimal (s : string) : option nat :=
  match s with
  | EmptyString => None
  | _ => parse_decimal_aux s 0%nat
  end.

(* ===================================================================== *)
(** ** Relay engine (utils.go, lines 57-131) *)
(* ===================================================================== *)

(** The loop of [relayOneDirection(c1, c2, timeout)], run over the read
    answers [rs] of [c1]: each turn takes the next answer as the result of
    [c1.Read(buf)].  The result is the error returned, or [None] when the
    loop is still blocked in [c1.Read] at the end of the script; with it
    come the unread answers and [c2] after the writes.  The local [done]
    is [nil] from its declaration on, so its two tests never return. *)
Fixpoint relayOneDirection_loop (rs : list (list Z * option error)) (c2 : Conn)
  : option error * list (list Z * option error) * Conn :=
  let done : option error := None in
  match rs with
  | [] => (None, [], c2)
  | (data, eRead) :: rest =>
      let nRead := length data in
      match done with
      | Some d => (Some d, rest, c2)
      | None =>
          if (0 <? nRead)%nat then
            let '((nWrite, eWrite), c2') := Conn_Write (Raw data) c2 in
            match done with
            | Some d => (Some d, rest, c2')
            | None =>
                match eWrite with
                | Some e => (Some e, rest, c2')
                | None =>
                    if negb (bool_decide (Some nRead = nWrite))
                    then (Some io_ErrShortWrite, rest, c2')
                    else match eRead with
                         | Some e => (Some e, rest, c2')
                         | None => relayOneDirection_loop rest c2'
                         end
                end
            end
          else
            match eRead with
            | Some e => (Some e, rest, c2)
            | None => relayOneDirection_loop rest c2
            end
      end
  end.

(** [relayOneDirection(c1, c2, timeout)]: reads [c1], writes [c2]. *)
Definition relayOneDirection (c1 c2 : Conn) : option error * Conn * Conn :=
  let '(e, rest, c2') := relayOneDirection_loop (reads c1) c2 in
  (e,
   {| reads := rest; wrres := wrres c1; calls := calls c1 |},
   c2').

(** The two directions of a relay: from [c] to [r] and back. *)
Inductive Direction : Type := ClientToRemote | RemoteToClient.

(** What the [select] of the first goroutine of [relay] takes: the
    context is done first (with [ctx2.Err()]), or a value arrives on
    [errCh] first, sent by the goroutine of one direction. *)
Inductive WatcherSelect : Type :=
| CtxDone (ctxErr : error)
| ErrChFirst (d : Direction).

(** The error the first goroutine stores in [err]: the context's, or the
    one that was sent on [errCh] first; [e1] and [e2] are the errors of
    the two directions. *)
Definition watcher_err (sel : WatcherSelect) (e1 e2 : error) : error :=
  match sel with
  | CtxDone ctxErr => ctxErr
  | ErrChFirst ClientToRemote => e1
  | ErrChFirst RemoteToClient => e2
  end.

(** [relay(ctx, c, r, timeout)].  [wg.Wait()] waits for the three
    goroutines, so [relay] returns only once both directions returned; the
    first component is then [Some] of the value returned, and the
    deferred [r.Close()] and [c.Close()] have run.  While a direction is
    still blocked the result is [None] and nothing is closed. *)
Definition relay (sel : WatcherSelect) (c r : Conn)
  : option (option error) * Conn * Conn :=
  (* go relayOneDirection(c, r): reads c, writes r *)
  let '(e1, c1, r1) := relayOneDirection c r in
  (* go relayOneDirection(r, c): reads r, writes c *)
  let '(e2, r2, c2) := relayOneDirection r1 c1 in
  match e1, e2 with
  | Some e1, Some e2 =>
      let err : option error := Some (watcher_err sel e1 e2) in
      (* if err == io.EOF { return nil }; return err *)
      (Some (if is_EOF err then None else err), Conn_Close c2, Conn_Close r2)
  | _, _ => (None, c2, r2)
  end.

(* ===================================================================== *)
(** ** Dial errors to reply codes (utils.go, lines 133-172) *)
(* ===================================================================== *)

(** Values of package syscall on Linux. *)
Definition EAGAIN : Z := 11.
Definition ENETUNREACH : Z := 101.
Definition ETIMEDOUT : Z := 110.
Definition ECONNREFUSED : Z := 111.
Definition EHOSTUNREACH : Z := 113.

(** [err.(net.Error)]: the answer of [Timeout()] when the dynamic type
    implements [net.Error].  An error number does, and is a timeout when
    it is EAGAIN (also EWOULDBLOCK) or ETIMEDOUT; so does the context's
    deadline error. *)
Definition as_net_Error (e : error) : option bool :=
  match e with
  | net_Error t => Some t
  | net_OpError t _ => Some t
  | syscall_Errno n => Some ((n =? EAGAIN) || (n =? ETIMEDOUT))
  | context_DeadlineExceeded => Some true
  | _ => None
  end.

Section DialErrors.

(** [common.ConvertSocketErrno], which is not in the two files: the
    platform's translation of socket error numbers. *)
Variable ConvertSocketErrno : Z -> Z.

Definition getReplyCode (err : option error) : ReplyCode :=
  match err with
  | None => OperationReplySuccess
  | Some e =>
      match as_net_Error e with
      | None => OperationReplyServerFailure
      | Some true => OperationReplyTimeout
      | Some false =>
          match e with
          | net_OpError _ (SyscallError (Errno errno)) =>
              let n := ConvertSocketErrno errno in
              if n =? ENETUNREACH then OperationReplyNetworkUnreachable
              else if n =? EHOSTUNREACH then OperationReplyHostUnreachable
              else if n =? ECONNREFUSED then OperationReplyConnectionRefused
              else if n =? ETIMEDOUT then OperationReplyTimeout
              else OperationReplyServerFailure
          | _ => OperationReplyServerFailure
          end
      end
  end.

End DialErrors.

(** The conversion on a platform whose socket error numbers are already
    those of package syscall. *)
Definition getReplyCode_posix : option error -> ReplyCode :=
  getReplyCode (fun n => n).

(* ===================================================================== *)
(** ** ICMP errors to UDP errors (utils.go, lines 174-244) *)
(* ===================================================================== *)

(** A Go call either returns or panics. *)
Inductive outcome (A : Type) : Type :=
| Returns (a : A)
| Panics.
Arguments Returns {A} a.
Arguments Panics {A}.

(** Modelled from the spec: the declaration of [message.UDPErrorType] and
    of its constants is not in the sources; these are the four error
    types the spec names, and [UDPErrorType_0] is the literal [0] the
    function starts from. *)
Inductive UDPErrorType : Type :=
| UDPErrorType_0
| UDPErrorNetworkUnreachable
| UDPErrorHostUnreachable
| UDPErrorTTLExpired
| UDPErrorDatagramTooBig.

Inductive AddressType : Type :=
| AddressTypeIPv4
| AddressTypeIPv6
| AddressTypeDomainName.

(** [message.SocksAddr], the fields [convertICMPError] fills in;
    [Address = None] is a nil slice. *)
Record SocksAddr : Type := mkSocksAddr {
  AddressType_ : AddressType;
  Address : option (list Z)
}.

(** [icmp.Type] is an interface: the value carries its package's type. *)
Inductive ICMPType : Type :=
| ipv4_ICMPType (n : Z)
| ipv6_ICMPType (n : Z).

Definition ipv4_ICMPTypeDestinationUnreachable : ICMPType := ipv4_ICMPType 3.
Definition ipv4_ICMPTypeTimeExceeded : ICMPType := ipv4_ICMPType 11.
Definition ipv6_ICMPTypeDestinationUnreachable : ICMPType := ipv6_ICMPType 1.
Definition ipv6_ICMPTypePacketTooBig : ICMPType := ipv6_ICMPType 2.
Definition ipv6_ICMPTypeTimeExceeded : ICMPType := ipv6_ICMPType 3.

Definition ICMPType_eqb (a b : ICMPType) : bool :=
  match a, b with
  | ipv4_ICMPType x, ipv4_ICMPType y => x =? y
  | ipv6_ICMPType x, ipv6_ICMPType y => x =? y
  | _, _ => false
  end.

(** [icmp.MessageBody]: the dynamic type of [msg.Body].  [Data] is a
    slice and may be nil, as it is in a parsed error message that
    carries nothing of the offending packet: [None] is the nil slice. *)
Inductive MessageBody : Type :=
| DstUnreach (Data : option (list Z))              (* *icmp.DstUnreach *)
| TimeExceeded (Data : option (list Z))            (* *icmp.TimeExceeded *)
| PacketTooBig (MTU : Z) (Data : option (list Z))  (* *icmp.PacketTooBig *)
| OtherBody.                              (* any other body, or nil *)

Record Message : Type := mkMessage {
  Type__ : ICMPType;
  Code : Z;
  Body : MessageBody
}.

(** [ip.To4()] and [ip.To16()] of package net. *)
Definition v4InV6Prefix : list Z := [0; 0; 0; 0; 0; 0; 0; 0; 0; 0; 255; 255].

Definition To4 (ip : list Z) : option (list Z) :=
  if (length ip =? 4)%nat then Some ip
  else if (length ip =? 16)%nat && bool_decide (take 12 ip = v4InV6Prefix)
       then Some (drop 12 ip)
  else None.

Definition To16 (ip : list Z) : option (list Z) :=
  if (length ip =? 4)%nat then Some (v4InV6Prefix ++ ip)
  else if (length ip =? 16)%nat then Some ip
  else None.

(** The type assertions of [msg.Body] to a pointer to [icmp.DstUnreach]
    and to [icmp.TimeExceeded]: the one-result form of a type assertion
    panics on another dynamic type. *)
Definition assert_DstUnreach (b : MessageBody) : outcome (option (list Z)) :=
  match b with DstUnreach d => Returns d | _ => Panics end.

Definition assert_TimeExceeded (b : MessageBody) : outcome (option (list Z)) :=
  match b with TimeExceeded d => Returns d | _ => Panics end.

Definition ICMPResult : Type :=
  (UDPErrorType * option SocksAddr * option (list Z))%type.

(** Tail of each handled case: [m2 := msg.Body.(T); hdr = m2.Data], then
    the final [return code, reporter, hdr]. *)
Definition with_hdr (code : UDPErrorType) (reporter : option SocksAddr)
    (asserted : outcome (option (list Z))) : outcome ICMPResult :=
  match asserted with
  | Returns d => Returns (code, reporter, d)
  | Panics => Panics
  end.

(** [convertICMPError(msg, ip, ver)]; a nil slice is [None], and the
    [hdr] the function starts from is the empty, non-nil [[]byte{}]. *)
Definition convertICMPError (msg : Message) (ip : list Z) (ver : Z)
  : outcome ICMPResult :=
  let code := UDPErrorType_0 in
  let hdr : option (list Z) := Some [] in
  if ver =? 4 then
    let reporter :=
      Some {| AddressType_ := AddressTypeIPv4; Address := To4 ip |} in
    if ICMPType_eqb (Type__ msg) ipv4_ICMPTypeDestinationUnreachable then
      if Code msg =? 0
      then with_hdr UDPErrorNetworkUnreachable reporter (assert_DstUnreach (Body msg))
      else if Code msg =? 1
      then with_hdr UDPErrorHostUnreachable reporter (assert_DstUnreach (Body msg))
      else Returns (UDPErrorType_0, None, None)
    else if ICMPType_eqb (Type__ msg) ipv4_ICMPTypeTimeExceeded then
      if Code msg =? 0
      then with_hdr UDPErrorTTLExpired reporter (assert_TimeExceeded (Body msg))
      else Returns (UDPErrorType_0, None, None)
    else Returns (code, reporter, hdr)
  else if ver =? 6 then
    let reporter :=
      Some {| AddressType_ := AddressTypeIPv6; Address := To16 ip |} in
    if ICMPType_eqb (Type__ msg) ipv6_ICMPTypeDestinationUnreachable then
      if Code msg =? 0
      then with_hdr UDPErrorNetworkUnreachable reporter (assert_DstUnreach (Body msg))
      else if Code msg =? 3
      then with_hdr UDPErrorHostUnreachable reporter (assert_DstUnreach (Body msg))
      else Returns (UDPErrorType_0, None, None)
    else if ICMPType_eqb (Type__ msg) ipv6_ICMPTypeTimeExceeded then
      if Code msg =? 0
      then with_hdr UDPErrorTTLExpired reporter (assert_TimeExceeded (Body msg))
      else Returns (UDPErrorType_0, None, None)
    else if ICMPType_eqb (Type__ msg) ipv6_ICMPTypePacketTooBig then
      (* here too the body is asserted to be a TimeExceeded *)
      with_hdr UDPErrorDatagramTooBig reporter (assert_TimeExceeded (Body msg))
    else Returns (code, reporter, hdr)
  else Returns (code, None, hdr).

(** The body [icmp.ParseMessage] gives a message of each type the
    function handles; [data] is nil when the message carries nothing of
    the offending packet. *)
Definition parsed_body (t : ICMPType) (mtu : Z) (data : option (list Z))
  : MessageBody :=
  if ICMPType_eqb t ipv4_ICMPTypeDestinationUnreachable then DstUnreach data
  else if ICMPType_eqb t ipv4_ICMPTypeTimeExceeded then TimeExceeded data
  else if ICMPType_eqb t ipv6_ICMPTypeDestinationUnreachable then DstUnreach data
  else if ICMPType_eqb t ipv6_ICMPTypeTimeExceeded then TimeExceeded data
  else if ICMPType_eqb t ipv6_ICMPTypePacketTooBig then PacketTooBig mtu data
  else OtherBody.

(** A message as [icmp.ParseMessage] produces it. *)
Definition parsed_message (t : ICMPType) (code mtu : Z)
    (data : option (list Z)) : Message :=
  {| Type__ := t; Code := code; Body := parsed_body t mtu data |}.

(** The reporter address the function builds for either version. *)
Definition reporter4 (ip : list Z) : option SocksAddr :=
  Some {| AddressType_ := AddressTypeIPv4; Address := To4 ip |}.

Definition reporter6 (ip : list Z) : option SocksAddr :=
  Some {| AddressType_ := AddressTypeIPv6; Address := To16 ip |}.

(* ===================================================================== *)
(** ** The server worker: configuration and shared maps *)
(* ===================================================================== *)

(** [auth.ServerAuthenticationResult] *)
Record ServerAuthenticationResult : Type := mkAuthResult {
  Success : bool;
  Continue : bool;
  SessionID : list Z;
  ClientName : string;
  SelectedMethod : Z;
  MethodData : option (list Z)      (* [None] is a nil slice *)
}.

(** [message.Request], as far as the worker looks into it: the command
    code, and the data of the two options the driver asks for. *)
Record Request : Type := mkRequest {
  CommandCode : Z;
  AuthenticationMethodAdvertisement_InitialDataLength : option Z;
  StreamID_ID : option Z
}.

(** [SocksConn]; its [Conn] field is the stream the driver was given. *)
Record SocksConn : Type := mkSocksConn {
  Request_ : Request;
  ClientId : string;
  Session : list Z;
  InitialData : option (list Z);
  StreamId : Z
}.

(** [auth.ServerAuthenticator]: the two calls that return something.
    The third, [SessionConnClose], returns nothing and is recorded as an
    event.  The handle passed from the first stage to the second is a
    number.  What an authenticator reads from or writes to the stream on
    its own is its business and is not recorded on the [Conn]. *)
Record ServerAuthenticator : Type := mkAuthenticator {
  Authenticate : Request -> ServerAuthenticationResult * nat;
  ContinueAuthenticate : nat -> Request -> ServerAuthenticationResult + error
}.

(** What the worker asks of its collaborators on one stream. *)
Inductive Event : Type :=
| SessionConnClose (id : list Z)
| CommandHandlerCall (cmd : Z) (cc : SocksConn).

(** [CommandHandler]: what the handler does to the stream. *)
Definition CommandHandler : Type := SocksConn -> Conn -> Conn.

(** [backlogBindWorker] and [udpAssociation]: the fields the worker reads. *)
Record backlogBindWorker : Type := mkBacklogBindWorker {
  bl_alive : bool
}.

Record udpAssociation : Type := mkUdpAssociation {
  ua_alive : bool;
  ua_pair : string;
  ua_icmpOn : bool;
  ua_udp_LocalAddr : string
}.

(** The configuration fields of [ServerWorker] the driver uses.  A nil
    function field is [None]. *)
Record ServerWorker : Type := mkServerWorker {
  Authenticator : ServerAuthenticator;
  Rule : option (SocksConn -> bool);
  CommandHandlers : gmap Z CommandHandler;
  VersionErrorHandler : option (Z -> list Z -> Conn -> Conn);
  IgnoreFragmentedRequest : bool
}.

(** The three shared maps of [ServerWorker]; the third is the field
    [udpAssociation] of the source, named in the plural here because the
    record of one association has that name. *)
Record WorkerMaps : Type := mkWorkerMaps {
  backlogWorker : gmap string backlogBindWorker;
  reservedUdpAddr : gmap string Z;
  udpAssociations : gmap Z udpAssociation
}.

(** [common.SyncMap.Range(f)]: [f] is called on the entries one after
    the other until it answers [false]; [S] is the state [f] works on. *)
Fixpoint Range_entries {K V S : Type} (f : K -> V -> S -> bool * S)
    (entries : list (K * V)) (s : S) : S :=
  match entries with
  | [] => s
  | (k, v) :: rest =>
      let '(continue, s') := f k v s in
      if continue then Range_entries f rest s' else s'
  end.

Definition SyncMap_Range {K V S : Type} `{Countable K}
    (f : K -> V -> S -> bool * S) (m : gmap K V) (s : S) : S :=
  Range_entries f (map_to_list m) s.

(* ===================================================================== *)
(** ** Resource reaper (serverworker.go, lines 515-545) *)
(* ===================================================================== *)

(** The callback of the walk over [backlogWorker]. *)
Definition reap_backlog (key : string) (value : backlogBindWorker)
    (s : WorkerMaps) : bool * WorkerMaps :=
  let bl := value in
  if bl_alive bl then (true, s)
  else (true,
        {| backlogWorker := delete key (backlogWorker s);
           reservedUdpAddr := reservedUdpAddr s;
           udpAssociations := udpAssociations s |}).

(** The callback of the walk over [udpAssociation]. *)
Definition reap_association (key : Z) (value : udpAssociation)
    (s : WorkerMaps) : bool * WorkerMaps :=
  let ua := value in
  if ua_alive ua then (true, s)
  else (true,
        {| backlogWorker := backlogWorker s;
           reservedUdpAddr := delete (ua_pair ua) (reservedUdpAddr s);
           udpAssociations := delete key (udpAssociations s) |}).

(** The body of the loop after the [select]: one walk over each map. *)
Definition reaper_tick (s : WorkerMaps) : WorkerMaps :=
  let s1 := SyncMap_Range reap_backlog (backlogWorker s) s in
  SyncMap_Range reap_association (udpAssociations s1) s1.

(** What the [select] at the head of the loop takes. *)
Inductive ReaperSelect : Type :=
| TickC          (* case <-tick.C *)
| Ctx2Done.      (* case <-ctx2.Done() *)

(** [ClearUnusedResource(ctx)] over the successive outcomes of its
    [select].  The boolean tells whether the function has returned; at the
    end of the list it is still waiting in the [select]. *)
Fixpoint ClearUnusedResource (sel : list ReaperSelect) (s : WorkerMaps)
  : bool * WorkerMaps :=
  match sel with
  | [] => (false, s)
  | Ctx2Done :: _ => (true, s)
  | TickC :: rest => ClearUnusedResource rest (reaper_tick s)
  end.

(** [n] walks in a row. *)
Fixpoint reaper_ticks (n : nat) (s : WorkerMaps) : WorkerMaps :=
  match n with
  | O => s
  | S n' => reaper_ticks n' (reaper_tick s)
  end.

(* ===================================================================== *)
(** ** Handshake driver (serverworker.go, lines 187-371 and 547-566) *)
(* ===================================================================== *)

(** [setAuthMethodInfo(arep, result)] *)
Definition setAuthMethodInfo (arep : AuthenticationReply)
    (result : ServerAuthenticationResult) : AuthenticationReply :=
  let arep1 :=
    if negb (SelectedMethod result =? 0) && negb (SelectedMethod result =? 255)
    then Options_Add (AuthenticationMethodSelection (SelectedMethod result)) arep
    else arep in
  match MethodData result with
  | Some data =>
      Options_Add (AuthenticationData (SelectedMethod result) data) arep1
  | None => arep1
  end.

(** [reply.Type = t] *)
Definition set_Type (t : AuthenticationReplyType) (arep : AuthenticationReply)
  : AuthenticationReply :=
  {| Type_ := t; Options := Options arep |}.

(** [s.authn(ctx, conn, req)]: a nil result is [None]. *)
Definition authn (s : ServerWorker) (conn : Conn) (req : Request)
  : option ServerAuthenticationResult * Conn :=
  let '(result1, sac) := Authenticate (Authenticator s) req in
  if Success result1 then
    (* one stage auth, success *)
    let reply :=
      setAuthMethodInfo
        (NewAuthenticationReplyWithType AuthenticationReplySuccess) result1 in
    match Conn_Write (AuthReplyMarshal reply) conn with
    | ((_, Some _), conn1) => (None, conn1)
    | ((_, None), conn1) => (Some result1, conn1)
    end
  else if negb (Continue result1) then
    (* one stage auth, can't continue *)
    let reply := NewAuthenticationReplyWithType AuthenticationReplyFail in
    match Conn_Write (AuthReplyMarshal reply) conn with
    | ((_, Some _), conn1) => (None, conn1)
    | ((_, None), conn1) => (Some result1, conn1)
    end
  else
    (* two stage auth *)
    let reply1 :=
      setAuthMethodInfo
        (NewAuthenticationReplyWithType AuthenticationReplyFail) result1 in
    match Conn_Write (AuthReplyMarshal reply1) conn with
    | ((_, Some _), conn1) => (None, conn1)
    | ((_, None), conn1) =>
        (* run stage 2 *)
        match ContinueAuthenticate (Authenticator s) sac req with
        | inr _ =>
            (None,
             Conn_Write_
               (AuthReplyMarshal
                  (NewAuthenticationReplyWithType AuthenticationReplyFail))
               conn1)
        | inl result2 =>
            let reply := setAuthMethodInfo NewAuthenticationReply result2 in
            let reply :=
              if Success result2
              then set_Type AuthenticationReplySuccess reply
              else set_Type AuthenticationReplyFail reply in
            match Conn_Write (AuthReplyMarshal reply) conn1 with
            | ((_, Some _), conn2) => (None, conn2)
            | ((_, None), conn2) => (Some result2, conn2)
            end
        end
    end.

(** [s.handleRequestError(ctx, conn, err)]; calling the nil
    [VersionErrorHandler] panics. *)
Definition handleRequestError (s : ServerWorker) (conn : Conn) (err : error)
  : outcome unit * Conn :=
  match err with
  | ErrVersionMismatch ver consumed =>        (* errors.As(err, &evm) *)
      match VersionErrorHandler s with
      | Some handler => (Returns tt, handler ver consumed conn)
      | None => (Panics, conn)
      end
  | ErrAddressTypeNotSupport =>               (* errors.Is(err, ...) *)
      let conn1 :=
        Conn_Write_
          (AuthReplyMarshal
             (NewAuthenticationReplyWithType AuthenticationReplyFail)) conn in
      let conn2 :=
        Conn_Write_
          (OperationReplyMarshal OperationReplyAddressNotSupported) conn1 in
      (* defer conn.Close() *)
      (Returns tt, Conn_Close conn2)
  | _ =>
      (* defer conn.Close() *)
      (Returns tt, Conn_Close conn)
  end.

(** Modelled from the spec: [common.NewCancellableDefer], which is not in
    the sources, is the scoped-close guard of the spec: its deferred
    function runs when the driver leaves unless the guard was cancelled
    (disarmed) before. *)
Record CancellableDefer : Type := mkCancellableDefer {
  cancelled : bool
}.

Definition NewCancellableDefer : CancellableDefer := {| cancelled := false |}.

Definition CancellableDefer_Cancel (d : CancellableDefer) : CancellableDefer :=
  {| cancelled := true |}.

Definition CancellableDefer_Defer (d : CancellableDefer) (f : Conn -> Conn)
    (conn : Conn) : Conn :=
  if cancelled d then conn else f conn.

(** What the stream delivers to the driver: the result of
    [message.ParseRequestFrom] (for the plain reader, [false], and for the
    reader that does not read across packets, [true]) and the result of
    reading the initial data. *)
Record StreamInput : Type := mkStreamInput {
  ParseRequestFrom : bool -> Request + error;
  initialData : list Z + error
}.

(** [io.ReadFull(conn, initData)] for a buffer of [n] bytes: an empty
    buffer is filled without reading. *)
Definition io_ReadFull (inp : StreamInput) (n : Z) : list Z + error :=
  if n =? 0 then inl [] else initialData inp.

Definition HandshakeResult : Type :=
  (option SocksConn * Z * option ServerAuthenticationResult)%type.

(** The body of [handshakeStream]: the result, the guard as it stands when
    the function leaves, and the stream. *)
Definition handshakeStream_body (s : ServerWorker) (inp : StreamInput)
    (conn : Conn) (prevAuth : option ServerAuthenticationResult)
  : outcome HandshakeResult * CancellableDefer * Conn :=
  let closeConn := NewCancellableDefer in
  let bufferOnly :=
    IgnoreFragmentedRequest s
    && match prevAuth with Some _ => true | None => false end in
  match ParseRequestFrom inp bufferOnly with
  | inr err =>
      let closeConn := CancellableDefer_Cancel closeConn in
      match handleRequestError s conn err with
      | (Returns _, conn1) => (Returns (None, 0, None), closeConn, conn1)
      | (Panics, conn1) => (Panics, closeConn, conn1)
      end
  | inl req =>
      let readInit : option (list Z) + error :=
        match AuthenticationMethodAdvertisement_InitialDataLength req with
        | Some initDataLen =>
            match io_ReadFull inp initDataLen with
            | inl data => inl (Some data)
            | inr e => inr e
            end
        | None => inl None
        end in
      match readInit with
      | inr _ => (Returns (None, 0, None), closeConn, conn)
      | inl initData =>
          let '(authResult, conn1) :=
            match prevAuth with
            | None => authn s conn req
            | Some prev => (Some prev, conn)
            end in
          match authResult with
          | None => (Returns (None, 0, None), closeConn, conn1)
          | Some authResult =>
              if match prevAuth with
                 | None => negb (Success authResult)
                 | Some _ => false
                 end
              then (Returns (None, 0, None), closeConn, conn1)
              else
                let cc :=
                  {| Request_ := req;
                     ClientId := ClientName authResult;
                     Session := SessionID authResult;
                     InitialData := initData;
                     StreamId := match StreamID_ID req with
                                 | Some sidVal => sidVal
                                 | None => 0
                                 end |} in
                if match Rule s with
                   | Some rule => negb (rule cc)
                   | None => false
                   end
                then
                  (Returns (None, CommandCode req, Some authResult), closeConn,
                   Conn_Write_
                     (OperationReplyMarshal OperationReplyNotAllowedByRule)
                     conn1)
                else
                  match CommandHandlers s !! CommandCode req with
                  | None =>
                      (Returns (None, CommandCode req, Some authResult),
                       closeConn,
                       Conn_Write_
                         (OperationReplyMarshal
                            OperationReplyCommandNotSupported) conn1)
                  | Some _ =>
                      (* it's handler's job to close conn *)
                      let closeConn := CancellableDefer_Cancel closeConn in
                      (Returns (Some cc, CommandCode req, Some authResult),
                       closeConn, conn1)
                  end
          end
      end
  end.

(** [s.handshakeStream(ctx, conn, prevAuth)]: the body, then the deferred
    [closeConn.Defer()]. *)
Definition handshakeStream (s : ServerWorker) (inp : StreamInput)
    (conn : Conn) (prevAuth : option ServerAuthenticationResult)
  : outcome HandshakeResult * Conn :=
  let '(res, closeConn, conn1) := handshakeStream_body s inp conn prevAuth in
  (res, CancellableDefer_Defer closeConn Conn_Close conn1).

(** One stream and what the worker asked of its collaborators. *)
Record World : Type := mkWorld {
  w_conn : Conn;
  w_trace : list Event
}.

(** [s.ServeStream(ctx, conn)] *)
Definition ServeStream (s : ServerWorker) (inp : StreamInput) (conn : Conn)
  : outcome World :=
  match handshakeStream s inp conn None with
  | (Panics, _) => Panics
  | (Returns (cc, cmd, ar), conn1) =>
      match ar, cc with
      | Some ar, Some cc =>
          if negb (Success ar)
          then Returns {| w_conn := Conn_Close conn1; w_trace := [] |}
          else
            (* defer s.Authenticator.SessionConnClose(ar.SessionID) *)
            match CommandHandlers s !! cmd with
            | Some handler =>
                Returns {| w_conn := handler cc conn1;
                           w_trace := [CommandHandlerCall cmd cc;
                                       SessionConnClose (SessionID ar)] |}
            | None => Panics
            end
      | _, _ => Returns {| w_conn := Conn_Close conn1; w_trace := [] |}
      end
  end.

(** [ForwardICMP] hands a converted error to every association with ICMP
    feedback whose UDP socket is the origin of the offending packet. *)
Record IcmpDown : Type := mkIcmpDown {
  down_assoc : Z;
  down_code : UDPErrorType;
  down_ipSrc : string;
  down_ipDst : string;
  down_reporter : option SocksAddr
}.

Section ICMPForwarding.

(** [nt.ParseSrcDstAddrFromIPHeader], which is not in the two files:
    source, destination and protocol number of the embedded header. *)
Variable ParseSrcDstAddrFromIPHeader : list Z -> Z -> (string * string * Z) + error.

(** [s.ForwardICMP(ctx, msg, ip, ver)]: the calls of [handleIcmpDown],
    each of which sends one UDP Error message. *)
Definition ForwardICMP (maps : WorkerMaps) (msg : Message) (ip : list Z)
    (ver : Z) : outcome (list IcmpDown) :=
  match convertICMPError msg ip ver with
  | Panics => Panics
  | Returns (_, _, None) => Returns []
  | Returns (code, reporter, Some hdr) =>
      match ParseSrcDstAddrFromIPHeader hdr ver with
      | inr _ => Returns []
      | inl (ipSrc, ipDst, proto) =>
          if negb (proto =? 17) then Returns []
          else
            Returns
              (SyncMap_Range
                 (fun key ua calls =>
                    if negb (ua_icmpOn ua) then (true, calls)
                    else if negb (String.eqb (ua_udp_LocalAddr ua) ipSrc)
                    then (true, calls)
                    else (true,
                          calls ++ [ {| down_assoc := key;
                                        down_code := code;
                                        down_ipSrc := ipSrc;
                                        down_ipDst := ipDst;
                                        down_reporter := reporter |} ]))
                 (udpAssociations maps) [])
      end
  end.

End ICMPForwarding.

(** [NewServerWorker()]: the default authenticator and the four command
    handlers are defined in other files and are taken as given. *)
Definition NewServerWorker (defaultAuth : ServerAuthenticator)
    (NoopHandler ConnectHandler BindHandler UdpAssociateHandler : CommandHandler)
  : ServerWorker :=
  {| Authenticator := defaultAuth;
     Rule := None;
     CommandHandlers :=
       <[0 := NoopHandler]>
         (<[1 := ConnectHandler]>
            (<[2 := BindHandler]>
               (<[3 := UdpAssociateHandler]> ∅)));
     VersionErrorHandler := Some (fun ver _ conn => ReplyVersionSpecificError ver conn);
     IgnoreFragmentedRequest := false |}.

(* ===================================================================== *)
(** ** Sample inputs *)
(* ===================================================================== *)

(** An authenticator that accepts everybody in one stage. *)
Definition sample_result : ServerAuthenticationResult :=
  {| Success := true; Continue := false; SessionID := [7; 7];
     ClientName := "alice"; SelectedMethod := 0; MethodData := None |}.

Definition sample_auth : ServerAuthenticator :=
  {| Authenticate := fun _ => (sample_result, 0%nat);
     ContinueAuthenticate := fun _ _ => inr (errorString "no second stage") |}.

(** A handler that only closes the stream. *)
Definition closing_handler : CommandHandler := fun _ conn => Conn_Close conn.

Definition sample_worker : ServerWorker :=
  NewServerWorker sample_auth closing_handler closing_handler closing_handler
    closing_handler.

(** The same worker with a rule that refuses every request. *)
Definition deny_all_worker : ServerWorker :=
  {| Authenticator := Authenticator sample_worker;
     Rule := Some (fun _ => false);
     CommandHandlers := CommandHandlers sample_worker;
     VersionErrorHandler := VersionErrorHandler sample_worker;
     IgnoreFragmentedRequest := IgnoreFragmentedRequest sample_worker |}.

(** A CONNECT request without options, delivered whole. *)
Definition connect_request : Request :=
  {| CommandCode := 1;
     AuthenticationMethodAdvertisement_InitialDataLength := None;
     StreamID_ID := None |}.

Definition connect_input : StreamInput :=
  {| ParseRequestFrom := fun _ => inl connect_request;
     initialData := inl [] |}.



(* ===================================================================== *)
(** ** The table of section 4.3, as the specification words it *)
(* ===================================================================== *)

(** The kinds of dial failure the table names. *)
Inductive DialFailure : Type :=
| dial_timeout
| dial_network_unreachable
| dial_host_unreachable
| dial_connection_refused
| dial_TTL_expired
| dial_other.

(** The reply code the table gives each kind; no failure is [None]. *)
Definition spec_reply_code (f : option DialFailure) : ReplyCode :=
  match f with
  | None => OperationReplySuccess
  | Some dial_timeout => OperationReplyTimeout
  | Some dial_network_unreachable => OperationReplyNetworkUnreachable
  | Some dial_host_unreachable => OperationReplyHostUnreachable
  | Some dial_connection_refused => OperationReplyConnectionRefused
  | Some dial_TTL_expired => OperationReplyTTLExpired
  | Some dial_other => OperationReplyServerFailure
  end.

(** Shared maps with one idle backlog worker, one idle association and
    one association in use. *)
Definition idle_association : udpAssociation :=
  {| ua_alive := false; ua_pair := "10.0.0.1:5000|"; ua_icmpOn := true;
     ua_udp_LocalAddr := "10.0.0.1:5000" |}.

Definition busy_association : udpAssociation :=
  {| ua_alive := true; ua_pair := "10.0.0.1:5001|"; ua_icmpOn := true;
     ua_udp_LocalAddr := "10.0.0.1:5001" |}.

Definition sample_maps : WorkerMaps :=
  {| backlogWorker := {[ "10.0.0.1:4000"%string := {| bl_alive := false |} ]};
     reservedUdpAddr :=
       <[ "10.0.0.1:5000|"%string := 11 ]> {[ "10.0.0.1:5001|"%string := 12 ]};
     udpAssociations := <[ 11 := idle_association ]> {[ 12 := busy_association ]} |}.

(** Two endpoints for the relay: the client sends three bytes of which
    the remote side takes two, and the remote side has ended its stream. *)
Definition short_write_client : Conn :=
  {| reads := [([1; 2; 3], None)]; wrres := []; calls := [] |}.


(** An endpoint that has ended its stream. *)
Definition ended_conn : Conn :=
  {| reads := [([], Some io_EOF)]; wrres := []; calls := [] |}.




(** An authenticator that refuses in one stage although a method was
    selected and the method left data for the client. *)
Definition refused_result : ServerAuthenticationResult :=
  {| Success := false; Continue := false; SessionID := [];
     ClientName := EmptyString; SelectedMethod := 2;
     MethodData := Some [1] |}.

Definition refusing_auth : ServerAuthenticator :=
  {| Authenticate := fun _ => (refused_result, 0%nat);
     ContinueAuthenticate := fun _ _ => inr (errorString "no second stage") |}.

Definition refusing_worker : ServerWorker :=
  NewServerWorker refusing_auth closing_handler closing_handler closing_handler
    closing_handler.

(** A reply carries an option of the one or the other kind. *)
Definition has_AuthenticationMethodSelection (r : AuthenticationReply) : Prop :=
  exists m, In (AuthenticationMethodSelection m) (Options r).

Definition has_AuthenticationData (r : AuthenticationReply) : Prop :=
  exists m d, In (AuthenticationData m d) (Options r).

(* ===================================================================== *)
(** ** Observations on endpoints used by the further properties *)
(* ===================================================================== *)

(** The byte stream handed to the Write calls of a log: the raw chunks,
    one after the other. *)
Fixpoint raw_bytes (l : list ConnCall) : list Z :=
  match l with
  | [] => []
  | Wrote (Raw bs) :: rest => bs ++ raw_bytes rest
  | _ :: rest => raw_bytes rest
  end.

(** The chunks a direction hands on: the reads that delivered bytes. *)
Definition chunks (consumed : list (list Z * option error)) : list (list Z) :=
  List.filter (fun d => (0 <? length d)%nat) (map fst consumed).

(** The same choice of the watcher, seen from the other endpoint. *)
Definition swap_select (sel : WatcherSelect) : WatcherSelect :=
  match sel with
  | CtxDone e => CtxDone e
  | ErrChFirst ClientToRemote => ErrChFirst RemoteToClient
  | ErrChFirst RemoteToClient => ErrChFirst ClientToRemote
  end.

(** A client that sends five bytes in two reads, the second together
    with the end of its stream. *)
Definition two_chunk_client : Conn :=
  {| reads := [([1; 2; 3], None); ([], None); ([4; 5], Some io_EOF)];
     wrres := []; calls := [] |}.

(** The call [ForwardICMP] makes for the association under [key]. *)
Definition icmp_down (code : UDPErrorType) (ipSrc ipDst : string)
    (reporter : option SocksAddr) (key : Z) : IcmpDown :=
  {| down_assoc := key; down_code := code; down_ipSrc := ipSrc;
     down_ipDst := ipDst; down_reporter := reporter |}.

(** A header parser for the samples: a header of one byte [17] is a UDP
    packet from the first sample association to a peer. *)
Definition sample_header_parser (hdr : list Z) (ver : Z)
  : (string * string * Z) + error :=
  match hdr with
  | [17] => inl ("10.0.0.1:5000"%string, "192.0.2.7:53"%string, 17)
  | _ => inr (errorString "header too short")
  end.

(** Shared maps in which an idle association and an association in use
    were registered under the same pair. *)
Definition twin_association : udpAssociation :=
  {| ua_alive := true; ua_pair := "10.0.0.1:5000|"; ua_icmpOn := false;
     ua_udp_LocalAddr := "10.0.0.1:5000" |}.

Definition twin_maps : WorkerMaps :=
  {| backlogWorker := ∅;
     reservedUdpAddr := {[ "10.0.0.1:5000|"%string := 21 ]};
     udpAssociations := <[ 11 := idle_association ]> {[ 21 := twin_association ]} |}.



(** A CONNECT request that announces four bytes of initial data and a
    stream id, on a stream that ends before the data. *)
Definition initdata_request : Request :=
  {| CommandCode := 1;
     AuthenticationMethodAdvertisement_InitialDataLength := Some 4;
     StreamID_ID := Some 9 |}.

Definition truncated_input : StreamInput :=
  {| ParseRequestFrom := fun _ => inl initdata_request;
     initialData := inr io_ErrUnexpectedEOF |}.

(** The same request with its four bytes. *)
Definition initdata_input : StreamInput :=
  {| ParseRequestFrom := fun _ => inl initdata_request;
     initialData := inl [1; 2; 3; 4] |}.




(* ===================================================================== *)
(** ** Datagrams (serverworker.go, lines 373-437) *)
(* ===================================================================== *)

(** [message.UDPMessage], as far as the worker looks into it. *)
Record UDPMessage : Type := mkUDPMessage {
  AssociationID : Z;
  udp_payload : list Z
}.

(** [nt.Datagram]: the result of [message.ParseUDPMessageFrom] on its
    data, and its remote address. *)
Record Datagram : Type := mkDatagram {
  dg_parsed : UDPMessage + error;
  dg_RemoteAddr : string
}.

(** What the worker asks of its collaborators for datagrams.  The body of
    [udpAssociation.handleUdpUp] is in another file: a call of it is
    recorded with its receiver (nil is [None]) and the message and
    source it is given. *)
Inductive DatagramEvent : Type :=
| DatagramVersionErrorHandlerCall (ver : Z) (consumed : list Z)
| handleUdpUpCall (assoc : option udpAssociation) (msg : option UDPMessage)
    (src : string).

(** [s.handleFirstDatagram(ctx, dgram)]; [handler_set] tells whether
    [s.DatagramVersionErrorHandler] is not nil.  With the association
    and the message come the calls made. *)
Definition handleFirstDatagram (handler_set : bool) (maps : WorkerMaps)
    (dgram : Datagram)
  : (option udpAssociation * option UDPMessage) * list DatagramEvent :=
  match dg_parsed dgram with
  | inr err =>
      match err with
      | ErrVersionMismatch ver consumed =>
          if handler_set
          then ((None, None), [DatagramVersionErrorHandlerCall ver consumed])
          else ((None, None), [])
      | _ => ((None, None), [])
      end
  | inl h =>
      match udpAssociations maps !! AssociationID h with
      | None => ((None, None), [])
      | Some assoc => ((Some assoc, Some h), [])
      end
  end.

(** [s.ServeDatagram(ctx, dgram)]: the calls made, as long as
    [handleUdpUp] returns. *)
Definition ServeDatagram (handler_set : bool) (maps : WorkerMaps)
    (dgram : Datagram) : list DatagramEvent :=
  let '((assoc, h), evs) := handleFirstDatagram handler_set maps dgram in
  evs ++ [handleUdpUpCall assoc h (dg_RemoteAddr dgram)].

(** The loop of [ServeSeqPacket] over the answers of
    [dgramSrc.NextDatagram()]: whether it has returned, and the calls
    made. *)
Fixpoint ServeSeqPacket_loop (assoc : option udpAssociation)
    (next : list (Datagram + error)) : bool * list DatagramEvent :=
  match next with
  | [] => (false, [])
  | inr _ :: _ => (true, [])
  | inl d :: rest =>
      match dg_parsed d with
      | inr _ => (true, [])
      | inl h =>
          let '(returned, evs) := ServeSeqPacket_loop assoc rest in
          (returned, handleUdpUpCall assoc (Some h) (dg_RemoteAddr d) :: evs)
      end
  end.

(** [s.ServeSeqPacket(ctx, dgramSrc)]: whether it has returned (at the
    end of the answers it is waiting for the next datagram), and the
    calls made, as long as every [handleUdpUp] returns. *)
Definition ServeSeqPacket (handler_set : bool) (maps : WorkerMaps)
    (next : list (Datagram + error)) : bool * list DatagramEvent :=
  match next with
  | [] => (false, [])
  | inr _ :: _ => (true, [])
  | inl d0 :: rest =>
      let '((assoc, h), evs) := handleFirstDatagram handler_set maps d0 in
      let '(returned, evs') := ServeSeqPacket_loop assoc rest in
      (returned,
       evs ++ handleUdpUpCall assoc h (dg_RemoteAddr d0) :: evs')
  end.

(* ===================================================================== *)
(** ** Multiplexed connections (serverworker.go, lines 468-509) *)
(* ===================================================================== *)


                              (* it goes on to accept further streams *)



(** Datagrams for the samples: one for the idle sample association, one
    that carries the id of no association, one that does not parse. *)
Definition datagram_for_11 : Datagram :=
  {| dg_parsed := inl {| AssociationID := 11; udp_payload := [1] |};
     dg_RemoteAddr := "198.51.100.2:4000" |}.

Definition datagram_for_99 : Datagram :=
  {| dg_parsed := inl {| AssociationID := 99; udp_payload := [2] |};
     dg_RemoteAddr := "198.51.100.2:4000" |}.

Definition datagram_garbage : Datagram :=
  {| dg_parsed := inr io_ErrUnexpectedEOF;
     dg_RemoteAddr := "198.51.100.2:4000" |}.

(** An entry of a datagram source that ends the loop of
    [ServeSeqPacket]: an error of the source, or a datagram that does
    not parse. *)
Definition ends_seqpacket (x : Datagram + error) : Prop :=
  match x with
  | inr _ => True
  | inl d => match dg_parsed d with inr _ => True | inl _ => False end
  end.

(* ===================================================================== *)
(** ** Outbound packet sockets (serverworker.go, lines 73-113) *)
(* ===================================================================== *)

(** [ip.Equal(x)], [ip.IsUnspecified()] and [ip.IsMulticast()] of package
    net. *)
Definition IP_Equal (ip x : list Z) : bool :=
  if (length ip =? length x)%nat then bool_decide (ip = x)
  else if (length ip =? 4)%nat && (length x =? 16)%nat
       then bool_decide (take 12 x = v4InV6Prefix)
            && bool_decide (ip = drop 12 x)
  else if (length ip =? 16)%nat && (length x =? 4)%nat
       then bool_decide (take 12 ip = v4InV6Prefix)
            && bool_decide (drop 12 ip = x)
  else false.

Definition IPv4zero : list Z := v4InV6Prefix ++ [0; 0; 0; 0].
Definition IPv6unspecified : list Z := repeat 0 16.

Definition IsUnspecified (ip : list Z) : bool :=
  IP_Equal ip IPv4zero || IP_Equal ip IPv6unspecified.

Definition IsMulticast (ip : list Z) : bool :=
  match To4 ip with
  | Some ip4 => Z.land (nth 0 ip4 0) 240 =? 224
  | None => (length ip =? 16)%nat && (nth 0 ip 0 =? 255)
  end.

(** [InternetServerOutbound]; a nil address is [None]. *)
Record InternetServerOutbound : Type := mkInternetServerOutbound {
  DefaultIPv4 : option (list Z);
  DefaultIPv6 : option (list Z);
  MulticastInterface : option string
}.

(** [net.IP(addr.Address)]: a nil slice has no bytes. *)
Definition Address_IP (addr : SocksAddr) : list Z :=
  match Address addr with Some ip => ip | None => [] end.

Section ListenPacket.

(** The addresses of package net and [net.ResolveUDPAddr("udp",
    addr.String())]. *)
Variable UDPAddr : Type.
Variable ResolveUDPAddr : SocksAddr -> UDPAddr + error.

(** The socket [ListenPacket] asks package net for. *)
Inductive ListenPacketCall : Type :=
| ListenMulticastUDP (ifi : option string) (ua : UDPAddr)
| ListenUDP (ua : UDPAddr).

(** [i.ListenPacket(ctx, option, addr)]: the socket asked for, or the
    error returned before asking; and [addr], which the caller passed by
    pointer, as the function leaves it. *)
Definition ListenPacket (i : InternetServerOutbound) (addr : SocksAddr)
  : (ListenPacketCall + error) * SocksAddr :=
  match AddressType_ addr with
  | AddressTypeDomainName => (inr ErrAddressTypeNotSupport, addr)
  | atyp =>
      let ip := Address_IP addr in
      let mcast := IsMulticast ip in
      let addr1 :=
        if mcast then addr
        else if IsUnspecified ip then
          match atyp with
          | AddressTypeIPv4 =>
              {| AddressType_ := AddressType_ addr; Address := DefaultIPv4 i |}
          | _ =>
              {| AddressType_ := AddressType_ addr; Address := DefaultIPv6 i |}
          end
        else addr in
      match ResolveUDPAddr addr1 with
      | inr err => (inr err, addr1)
      | inl ua =>
          if mcast
          then (inl (ListenMulticastUDP (MulticastInterface i) ua), addr1)
          else (inl (ListenUDP ua), addr1)
      end
  end.

End ListenPacket.

Arguments ListenMulticastUDP {UDPAddr} ifi ua.
Arguments ListenUDP {UDPAddr} ua.

(** An outbound with documentation addresses as defaults, and a resolver
    that answers with the address it is given. *)
Definition sample_outbound : InternetServerOutbound :=
  {| DefaultIPv4 := Some [192; 0; 2; 10];
     DefaultIPv6 :=
       Some [32; 1; 13; 184; 0; 0; 0; 0; 0; 0; 0; 0; 0; 0; 0; 10];
     MulticastInterface := None |}.

Definition echo_resolver (addr : SocksAddr) : SocksAddr + error := inl addr.

(* ===================================================================== *)
(** ** The shadowsocks server's authenticator
       (cmd/shadowsocks2021/cmd/server/main.go, lines 20-65) *)
(* ===================================================================== *)

(** The options of the request that [ssServerAuth.Authenticate] asks
    for: the time of the tick option (an instant in nanoseconds), and
    whether the two token options are there. *)
Record SSOptions : Type := mkSSOptions {
  SSTick_Time : option Z;
  has_IdempotenceExpenditure : bool;
  has_TokenRequest : bool
}.

(** [1 * time.Minute], in nanoseconds. *)
Definition time_Minute : Z := 60000000000.

(** [&auth.ServerAuthenticationResult{Success: false, Continue: false}] *)
Definition ss_refusal : ServerAuthenticationResult :=
  {| Success := false; Continue := false; SessionID := [];
     ClientName := EmptyString; SelectedMethod := 0; MethodData := None |}.

(** [a.Authenticate(ctx, conn, req)] of [ssServerAuth].  [now1] and
    [now2] are the two readings of [time.Now()], [default] is the
    embedded authenticator; the handle returned is nil ([None]) on the
    refusals of this function. *)
Definition ssServerAuth_Authenticate (default : ServerAuthenticator)
    (now1 now2 : Z) (conn : Conn) (req : Request) (opts : SSOptions)
  : (ServerAuthenticationResult * option nat) * Conn :=
  match SSTick_Time opts with
  | None => ((ss_refusal, None), Conn_Close conn)
  | Some t =>
      let tooYoung := now1 + time_Minute <? t in
      let tooOld := t + time_Minute <? now2 in
      if tooYoung || tooOld
      then ((ss_refusal, None), Conn_Close conn)
      else
        let token1 := has_IdempotenceExpenditure opts in
        let token2 := has_TokenRequest opts in
        if negb token1 || negb token2
        then ((ss_refusal, None), Conn_Close conn)
        else
          let '(sar, sac) := Authenticate default req in
          if negb (Success sar) && negb (Continue sar)
          then ((sar, Some sac), Conn_Close conn)
          else ((sar, Some sac), conn)
  end.

(* ===================================================================== *)
(** ** Random numbers (common/rnd/rand.go) *)
(* ===================================================================== *)

(** [binary.BigEndian.Uint16], [Uint32] and [Uint64] on a slice that is
    long enough. *)
Definition BigEndian_Uint16 (b : list Z) : Z :=
  Z.lor (nth 1 b 0) (Z.shiftl (nth 0 b 0) 8).

Definition BigEndian_Uint32 (b : list Z) : Z :=
  Z.lor (Z.lor (Z.lor (nth 3 b 0) (Z.shiftl (nth 2 b 0) 8))
               (Z.shiftl (nth 1 b 0) 16))
        (Z.shiftl (nth 0 b 0) 24).

Definition BigEndian_Uint64 (b : list Z) : Z :=
  Z.lor (Z.lor (Z.lor (Z.lor (Z.lor (Z.lor (Z.lor
    (nth 7 b 0)
    (Z.shiftl (nth 6 b 0) 8))
    (Z.shiftl (nth 5 b 0) 16))
    (Z.shiftl (nth 4 b 0) 24))
    (Z.shiftl (nth 3 b 0) 32))
    (Z.shiftl (nth 2 b 0) 40))
    (Z.shiftl (nth 1 b 0) 48))
    (Z.shiftl (nth 0 b 0) 56).

Section Rand.

(** [rand.Read(r)] of crypto/rand on a slice of the given length: the
    bytes it put there, or its error. *)
Variable rand_Read : nat -> list Z + error.

(** [RandBytes(l)]: [lo.Must1] panics on the error. *)
Definition RandBytes (l : nat) : outcome (list Z) :=
  match rand_Read l with
  | inl r => Returns r
  | inr _ => Panics
  end.

Definition RandUint16 : outcome Z :=
  match RandBytes 2 with
  | Returns buf => Returns (BigEndian_Uint16 buf)
  | Panics => Panics
  end.

Definition RandUint32 : outcome Z :=
  match RandBytes 4 with
  | Returns buf => Returns (BigEndian_Uint32 buf)
  | Panics => Panics
  end.

Definition RandUint64 : outcome Z :=
  match RandBytes 8 with
  | Returns buf => Returns (BigEndian_Uint64 buf)
  | Panics => Panics
  end.

End Rand.

(** A slice of [l] bytes. *)
Definition is_bytes (l : nat) (b : list Z) : Prop :=
  length b = l /\ Forall (fun x => 0 <= x < 256) b.

(** The number a list of bytes spells, most significant byte first. *)
Definition big_endian (b : list Z) : Z :=
  fold_left (fun acc x => acc * 256 + x) b 0.

(** A source of entropy for the samples that counts up from one. *)
Definition counting_entropy (l : nat) : list Z + error :=
  inl (map Z.of_nat (seq 1 l)).

(** A source of entropy that has run dry. *)
Definition failing_entropy (l : nat) : list Z + error :=
  inr (errorString "entropy unavailable").

(* ===================================================================== *)
(** * Properties *)
(* ===================================================================== *)

(** ** Stream endpoints *)

Lemma written_app (l1 l2 : list ConnCall) :
  written (l1 ++ l2) = written l1 ++ written l2.
Proof.
  induction l1 as [|[p|] l1 IH]; simpl; [reflexivity | now rewrite IH | exact IH].
Qed.

Lemma closed_count_app (l1 l2 : list ConnCall) :
  closed_count (l1 ++ l2) = (closed_count l1 + closed_count l2)%nat.
Proof.
  induction l1 as [|[p|] l1 IH]; simpl; [reflexivity | exact IH | now rewrite IH].
Qed.

Lemma calls_Conn_Write (p : Payload) (c : Conn) :
  calls (snd (Conn_Write p c)) = calls c ++ [Wrote p].
Proof. unfold Conn_Write. destruct (wrres c) as [|[n e] rest]; reflexivity. Qed.

Lemma calls_Conn_Write_ (p : Payload) (c : Conn) :
  calls (Conn_Write_ p c) = calls c ++ [Wrote p].
Proof. apply calls_Conn_Write. Qed.

Lemma calls_Conn_Close (c : Conn) : calls (Conn_Close c) = calls c ++ [Closed].
Proof. reflexivity. Qed.

Lemma outbox_Conn_Write (p : Payload) (c : Conn) :
  outbox (snd (Conn_Write p c)) = outbox c ++ [p].
Proof. unfold outbox. now rewrite calls_Conn_Write, written_app. Qed.

Lemma closes_Conn_Write (p : Payload) (c : Conn) :
  closes (snd (Conn_Write p c)) = closes c.
Proof.
  unfold closes. rewrite calls_Conn_Write, closed_count_app. simpl. lia.
Qed.

Lemma reads_Conn_Write (p : Payload) (c : Conn) :
  reads (snd (Conn_Write p c)) = reads c.
Proof. unfold Conn_Write. destruct (wrres c) as [|[n e] rest]; reflexivity. Qed.

Lemma outbox_Conn_Write_ (p : Payload) (c : Conn) :
  outbox (Conn_Write_ p c) = outbox c ++ [p].
Proof. apply outbox_Conn_Write. Qed.


Lemma outbox_Conn_Close (c : Conn) : outbox (Conn_Close c) = outbox c.
Proof.
  unfold outbox. rewrite calls_Conn_Close, written_app. simpl.
  apply app_nil_r.
Qed.


(** ** Version mismatch replies *)

Lemma is_http_first_byte_In (v : Z) :
  is_http_first_byte v = true <-> In v http_first_bytes.
Proof.
  unfold is_http_first_byte. rewrite existsb_exists. split.
  - intros [x [Hin Heq]]. apply Z.eqb_eq in Heq. subst x. exact Hin.
  - intros Hin. exists v. split; [exact Hin | apply Z.eqb_refl].
Qed.

(** What the one [Write] of the handler is given, read off the source
    case by case. *)
Lemma ReplyVersionSpecificError_calls (v : Z) (conn : Conn) :
  exists p,
    calls (ReplyVersionSpecificError v conn)
    = calls conn ++ [Wrote (Raw p); Closed] /\
    p = (if v =? 4 then [0; 91]
         else if v =? 5 then [5; 255]
         else if v =? 6 then [6]
         else if is_http_first_byte v then bytes_of_string httpReply
         else [6]).
Proof.
  unfold ReplyVersionSpecificError.
  rewrite calls_Conn_Close.
  destruct (v =? 4);
    [eexists; rewrite calls_Conn_Write_, <- app_assoc; simpl; eauto|].
  destruct (v =? 5);
    [eexists; rewrite calls_Conn_Write_, <- app_assoc; simpl; eauto|].
  destruct (v =? 6);
    [eexists; rewrite calls_Conn_Write_, <- app_assoc; simpl; eauto|].
  destruct (is_http_first_byte v);
    eexists; rewrite calls_Conn_Write_, <- app_assoc; simpl; eauto.
Qed.

(** The HTTP answer as a client reads it. *)
Lemma httpReply_shape :
  http_status_line httpReply = Some "HTTP/1.0 500 Internal Server Error"%string /\
  exists headers body len,
    http_head_body httpReply = Some (headers, body) /\
    is_Some (http_header "Proxy-Status" headers) /\
    http_header "Content-Length" headers = Some len /\
    parse_decimal len = Some (String.length body).
Proof.
  split; [vm_compute; reflexivity|].
  destruct (http_head_body httpReply) as [[headers body]|] eqn:E;
    [|vm_compute in E; discriminate].
  destruct (http_header "Content-Length" headers) as [len|] eqn:L;
    [|vm_compute in E; injection E as <- <-; vm_compute in L; discriminate].
  exists headers, body, len.
  vm_compute in E. injection E as <- <-.
  vm_compute in L. injection L as <-.
  repeat split; vm_compute; eauto.
Qed.

(** Reading the bytes of a string back gives the string. *)
Lemma string_of_bytes_of_string (s : string) :
  string_of_bytes (bytes_of_string s) = s.
Proof.
  induction s as [|a s IH]; [reflexivity|].
  cbn [bytes_of_string string_of_bytes].
  now rewrite Nat2Z.id, ascii_nat_embedding, IH.
Qed.

(** C3: for every first byte [v] the handler makes two calls on the
    connection, one [Write] and then [Close]; the bytes written are
    [0x00 0x5B] for 4, [0x05 0xFF] for 5, [0x06] for 6 and for every
    byte that is none of C D G H O P T c d g h o p t; for each of these
    letters the bytes written, read as an HTTP message, have the status
    line [HTTP/1.0 500 Internal Server Error], a [Proxy-Status] header,
    and a body of as many bytes as the [Content-Length] header says. *)
Theorem ReplyVersionSpecificError_replies (v : Z) (conn : Conn) :
  exists p,
    calls (ReplyVersionSpecificError v conn)
    = calls conn ++ [Wrote (Raw p); Closed] /\
    (v = 4 -> p = [0; 91]) /\
    (v = 5 -> p = [5; 255]) /\
    (v = 6 -> p = [6]) /\
    (In v [67; 68; 71; 72; 79; 80; 84; 99; 100; 103; 104; 111; 112; 116] ->
     http_status_line (string_of_bytes p)
     = Some "HTTP/1.0 500 Internal Server Error"%string /\
     exists headers body len,
       http_head_body (string_of_bytes p) = Some (headers, body) /\
       is_Some (http_header "Proxy-Status" headers) /\
       http_header "Content-Length" headers = Some len /\
       parse_decimal len = Some (String.length body)) /\
    (v <> 4 -> v <> 5 ->
     ~ In v [67; 68; 71; 72; 79; 80; 84; 99; 100; 103; 104; 111; 112; 116] ->
     p = [6]).
Proof.
  destruct (ReplyVersionSpecificError_calls v conn) as [p [Hout Hp]].
  exists p. split; [exact Hout|]. subst p.
  split; [|split; [|split; [|split]]].
  - intros ->. reflexivity.
  - intros ->. reflexivity.
  - intros ->. reflexivity.
  - intros Hin.
    assert (Hp : (if v =? 4 then [0; 91]
                  else if v =? 5 then [5; 255]
                  else if v =? 6 then [6]
                  else if is_http_first_byte v then bytes_of_string httpReply
                  else [6]) = bytes_of_string httpReply).
    { simpl in Hin.
      repeat (destruct Hin as [<-|Hin]; [reflexivity|]). destruct Hin. }
    rewrite Hp, string_of_bytes_of_string.
    destruct httpReply_shape as [Hline [headers [body [len [H1 [H2 [H3 H4]]]]]]].
    split; [exact Hline|]. exists headers, body, len.
    repeat split; assumption.
  - intros H4 H5 Hn.
    destruct (Z.eqb_spec v 4) as [|_]; [contradiction|].
    destruct (Z.eqb_spec v 5) as [|_]; [contradiction|].
    destruct (Z.eqb_spec v 6) as [|_]; [reflexivity|].
    destruct (is_http_first_byte v) eqn:E; [|reflexivity].
    exfalso. apply Hn. apply is_http_first_byte_In in E.
    simpl in E. simpl. tauto.
Qed.

Lemma ReplyVersionSpecificError_replies_witness :
  In 71 [67; 68; 71; 72; 79; 80; 84; 99; 100; 103; 104; 111; 112; 116] /\
  exists p,
    calls (ReplyVersionSpecificError 71 fresh_conn)
    = [] ++ [Wrote (Raw p); Closed] /\
    http_status_line (string_of_bytes p)
    = Some "HTTP/1.0 500 Internal Server Error"%string.
Proof.
  assert (Hin : In 71 [67; 68; 71; 72; 79; 80; 84; 99; 100; 103; 104; 111; 112; 116])
    by (simpl; tauto).
  split; [exact Hin|].
  destruct (ReplyVersionSpecificError_replies 71 fresh_conn)
    as [p [Hout [_ [_ [_ [Hhttp _]]]]]].
  exists p. split; [exact Hout | exact (proj1 (Hhttp Hin))].
Defined.

(** ** Dial errors to reply codes *)

Section DialErrorFacts.

Variable conv : Z -> Z.

Lemma getReplyCode_nil (err : option error) :
  getReplyCode conv err = OperationReplySuccess <-> err = None.
Proof.
  split; [|intros ->; reflexivity].
  destruct err as [e|]; [|reflexivity]. simpl.
  destruct (as_net_Error e) as [[|]|]; [discriminate | | discriminate].
  destruct e as [| | | | | | | | | |t [[errno|]|]]; try discriminate.
  destruct (conv errno =? ENETUNREACH); [discriminate|].
  destruct (conv errno =? EHOSTUNREACH); [discriminate|].
  destruct (conv errno =? ECONNREFUSED); [discriminate|].
  destruct (conv errno =? ETIMEDOUT); discriminate.
Qed.

Lemma getReplyCode_never_TTLExpired (err : option error) :
  getReplyCode conv err <> OperationReplyTTLExpired.
Proof.
  destruct err as [e|]; [|discriminate]. simpl.
  destruct (as_net_Error e) as [[|]|]; [discriminate | | discriminate].
  destruct e as [| | | | | | | | | |t [[errno|]|]]; try discriminate.
  destruct (conv errno =? ENETUNREACH); [discriminate|].
  destruct (conv errno =? EHOSTUNREACH); [discriminate|].
  destruct (conv errno =? ECONNREFUSED); [discriminate|].
  destruct (conv errno =? ETIMEDOUT); discriminate.
Qed.

Lemma getReplyCode_errno (errno : Z) :
  getReplyCode conv (Some (net_OpError false (SyscallError (Errno errno))))
  = (if conv errno =? ENETUNREACH then OperationReplyNetworkUnreachable
     else if conv errno =? EHOSTUNREACH then OperationReplyHostUnreachable
     else if conv errno =? ECONNREFUSED then OperationReplyConnectionRefused
     else if conv errno =? ETIMEDOUT then OperationReplyTimeout
     else OperationReplyServerFailure).
Proof. reflexivity. Qed.

End DialErrorFacts.

(** C2, as the code has it: the conversion gives [Success] exactly for the
    nil error; [Timeout] for every error whose [Timeout()] is true;
    for a [net.OpError] that is no timeout and wraps an [os.SyscallError]
    with an error number, [NetworkUnreachable], [HostUnreachable],
    [ConnectionRefused] or [Timeout] when the converted number is
    ENETUNREACH, EHOSTUNREACH, ECONNREFUSED or ETIMEDOUT, and
    [ServerFailure] for another number; [ServerFailure] for every other
    error; and [TTLExpired] for no error at all. *)
Theorem getReplyCode_table (conv : Z -> Z) (err : option error) :
  (getReplyCode conv err = OperationReplySuccess <-> err = None) /\
  getReplyCode conv err <> OperationReplyTTLExpired /\
  (forall e, err = Some e -> as_net_Error e = Some true ->
     getReplyCode conv err = OperationReplyTimeout) /\
  (forall errno,
     err = Some (net_OpError false (SyscallError (Errno errno))) ->
     (conv errno = ENETUNREACH ->
      getReplyCode conv err = OperationReplyNetworkUnreachable) /\
     (conv errno = EHOSTUNREACH ->
      getReplyCode conv err = OperationReplyHostUnreachable) /\
     (conv errno = ECONNREFUSED ->
      getReplyCode conv err = OperationReplyConnectionRefused) /\
     (conv errno = ETIMEDOUT ->
      getReplyCode conv err = OperationReplyTimeout) /\
     (conv errno <> ENETUNREACH -> conv errno <> EHOSTUNREACH ->
      conv errno <> ECONNREFUSED -> conv errno <> ETIMEDOUT ->
      getReplyCode conv err = OperationReplyServerFailure)) /\
  (forall e, err = Some e -> as_net_Error e <> Some true ->
     (forall t errno, e <> net_OpError t (SyscallError (Errno errno))) ->
     getReplyCode conv err = OperationReplyServerFailure).
Proof.
  split; [apply getReplyCode_nil|].
  split; [apply getReplyCode_never_TTLExpired|].
  split; [intros e -> Ht; simpl; now rewrite Ht|].
  split.
  - intros errno ->. rewrite getReplyCode_errno.
    unfold ENETUNREACH, EHOSTUNREACH, ECONNREFUSED, ETIMEDOUT.
    repeat split.
    + intros ->. reflexivity.
    + intros ->. reflexivity.
    + intros ->. reflexivity.
    + intros ->. reflexivity.
    + intros H1 H2 H3 H4.
      destruct (Z.eqb_spec (conv errno) 101); [contradiction|].
      destruct (Z.eqb_spec (conv errno) 113); [contradiction|].
      destruct (Z.eqb_spec (conv errno) 111); [contradiction|].
      destruct (Z.eqb_spec (conv errno) 110); [contradiction|].
      reflexivity.
  - intros e -> Hnt Hshape. simpl.
    destruct (as_net_Error e) as [[|]|] eqn:E; [congruence | | reflexivity].
    destruct e as [| | | | | | | | | |t [[errno|]|]]; try reflexivity.
    exfalso. exact (Hshape t errno eq_refl).
Qed.

Lemma getReplyCode_table_witness :
  getReplyCode_posix (Some (net_OpError false (SyscallError (Errno 111))))
  = OperationReplyConnectionRefused.
Proof.
  destruct (getReplyCode_table (fun n => n)
              (Some (net_OpError false (SyscallError (Errno 111)))))
    as [_ [_ [_ [H _]]]].
  destruct (H 111 eq_refl) as [_ [_ [Hrefused _]]].
  exact (Hrefused eq_refl).
Defined.

(** C2 as stated fails on its TTL row: whatever the platform's
    translation of error numbers, no dial error is given the reply code
    the table has for an expired TTL.  It also fails for a refused
    connection reported as the bare error number: the reply code is the
    one the table has for other errors. *)
Lemma getReplyCode_TTL_row_unreachable :
  (~ exists (conv : Z -> Z) (e : error),
       getReplyCode conv (Some e) = spec_reply_code (Some dial_TTL_expired)) /\
  getReplyCode_posix (Some (syscall_Errno ECONNREFUSED))
  = spec_reply_code (Some dial_other) /\
  getReplyCode_posix (Some (syscall_Errno ECONNREFUSED))
  <> spec_reply_code (Some dial_connection_refused).
Proof.
  split; [|split; [reflexivity | discriminate]].
  intros [conv [e He]]. exact (getReplyCode_never_TTLExpired conv (Some e) He).
Qed.

(** ** ICMP errors to UDP errors *)

(** The rows of the table that the code gets right. *)
Lemma convertICMPError_rows (mtu : Z) (data : option (list Z)) (ip : list Z) :
  convertICMPError (parsed_message ipv4_ICMPTypeDestinationUnreachable 0 mtu data) ip 4
  = Returns (UDPErrorNetworkUnreachable, reporter4 ip, data) /\
  convertICMPError (parsed_message ipv4_ICMPTypeDestinationUnreachable 1 mtu data) ip 4
  = Returns (UDPErrorHostUnreachable, reporter4 ip, data) /\
  convertICMPError (parsed_message ipv4_ICMPTypeTimeExceeded 0 mtu data) ip 4
  = Returns (UDPErrorTTLExpired, reporter4 ip, data) /\
  convertICMPError (parsed_message ipv6_ICMPTypeDestinationUnreachable 0 mtu data) ip 6
  = Returns (UDPErrorNetworkUnreachable, reporter6 ip, data) /\
  convertICMPError (parsed_message ipv6_ICMPTypeDestinationUnreachable 3 mtu data) ip 6
  = Returns (UDPErrorHostUnreachable, reporter6 ip, data) /\
  convertICMPError (parsed_message ipv6_ICMPTypeTimeExceeded 0 mtu data) ip 6
  = Returns (UDPErrorTTLExpired, reporter6 ip, data).
Proof. repeat split. Qed.

(** Another code of a handled type gives a nil header. *)
Lemma convertICMPError_other_code (code mtu : Z) (data : option (list Z))
    (ip : list Z) :
  (code <> 0 -> code <> 1 ->
   convertICMPError (parsed_message ipv4_ICMPTypeDestinationUnreachable code mtu data) ip 4
   = Returns (UDPErrorType_0, None, None)) /\
  (code <> 0 ->
   convertICMPError (parsed_message ipv4_ICMPTypeTimeExceeded code mtu data) ip 4
   = Returns (UDPErrorType_0, None, None)) /\
  (code <> 0 -> code <> 3 ->
   convertICMPError (parsed_message ipv6_ICMPTypeDestinationUnreachable code mtu data) ip 6
   = Returns (UDPErrorType_0, None, None)) /\
  (code <> 0 ->
   convertICMPError (parsed_message ipv6_ICMPTypeTimeExceeded code mtu data) ip 6
   = Returns (UDPErrorType_0, None, None)).
Proof.
  unfold convertICMPError, parsed_message. simpl.
  repeat split; intros.
  - destruct (Z.eqb_spec code 0); [contradiction|].
    destruct (Z.eqb_spec code 1); [contradiction|]. reflexivity.
  - destruct (Z.eqb_spec code 0); [contradiction|]. reflexivity.
  - destruct (Z.eqb_spec code 0); [contradiction|].
    destruct (Z.eqb_spec code 3); [contradiction|]. reflexivity.
  - destruct (Z.eqb_spec code 0); [contradiction|]. reflexivity.
Qed.

(** C5, the row the code misses: an ICMPv6 Packet Too Big message, with
    the body the ICMP parser gives it, is not converted to
    [UDPErrorDatagramTooBig]; the type assertion on its body panics, in
    [convertICMPError] and so in [ForwardICMP], whatever the code, the
    MTU, the embedded data, the reporter and the associations. *)
Theorem convertICMPError_PacketTooBig_panics
    (parse : list Z -> Z -> (string * string * Z) + error)
    (maps : WorkerMaps) (code mtu : Z) (data : option (list Z))
    (ip : list Z) :
  parsed_message ipv6_ICMPTypePacketTooBig code mtu data
  = {| Type__ := ipv6_ICMPTypePacketTooBig; Code := code;
       Body := PacketTooBig mtu data |} /\
  convertICMPError (parsed_message ipv6_ICMPTypePacketTooBig code mtu data) ip 6
  = Panics /\
  ForwardICMP parse maps
    (parsed_message ipv6_ICMPTypePacketTooBig code mtu data) ip 6
  = Panics.
Proof.
  split; [reflexivity|].
  assert (H : convertICMPError
                (parsed_message ipv6_ICMPTypePacketTooBig code mtu data) ip 6
              = Panics) by reflexivity.
  split; [exact H|]. unfold ForwardICMP. now rewrite H.
Qed.

(** ** Resource reaper *)

Section ReaperWalks.

Implicit Types (s : WorkerMaps).

Lemma Range_reap_backlog_cons k v (l : list (string * backlogBindWorker)) s :
  Range_entries reap_backlog ((k, v) :: l) s
  = Range_entries reap_backlog l
      (if bl_alive v then s
       else {| backlogWorker := delete k (backlogWorker s);
               reservedUdpAddr := reservedUdpAddr s;
               udpAssociations := udpAssociations s |}).
Proof. simpl. unfold reap_backlog at 1. now destruct (bl_alive v). Qed.

Lemma Range_reap_association_cons k v (l : list (Z * udpAssociation)) s :
  Range_entries reap_association ((k, v) :: l) s
  = Range_entries reap_association l
      (if ua_alive v then s
       else {| backlogWorker := backlogWorker s;
               reservedUdpAddr := delete (ua_pair v) (reservedUdpAddr s);
               udpAssociations := delete k (udpAssociations s) |}).
Proof. simpl. unfold reap_association at 1. now destruct (ua_alive v). Qed.

(** The walk over the backlog workers only deletes from their map. *)
Lemma Range_reap_backlog_others (l : list (string * backlogBindWorker)) s :
  reservedUdpAddr (Range_entries reap_backlog l s) = reservedUdpAddr s /\
  udpAssociations (Range_entries reap_backlog l s) = udpAssociations s.
Proof.
  revert s. induction l as [|[k v] l IH]; intros s; [done|].
  rewrite Range_reap_backlog_cons. destruct (bl_alive v); [apply IH|].
  match goal with
  | |- context [Range_entries _ l ?s'] => destruct (IH s') as [-> ->]
  end.
  done.
Qed.

Lemma Range_reap_backlog_None (l : list (string * backlogBindWorker)) s key :
  backlogWorker s !! key = None ->
  backlogWorker (Range_entries reap_backlog l s) !! key = None.
Proof.
  revert s. induction l as [|[k v] l IH]; intros s Hs; [done|].
  rewrite Range_reap_backlog_cons. destruct (bl_alive v); apply IH; [done|]. simpl.
  destruct (decide (k = key)) as [->|Hne].
  - apply lookup_delete_eq.
  - rewrite lookup_delete_ne by done. exact Hs.
Qed.

Lemma Range_reap_backlog_dead (l : list (string * backlogBindWorker)) s key bl :
  (key, bl) ∈ l -> bl_alive bl = false ->
  backlogWorker (Range_entries reap_backlog l s) !! key = None.
Proof.
  revert s. induction l as [|[k v] l IH]; intros s Hin Hdead.
  - inversion Hin.
  - apply elem_of_cons in Hin as [Heq|Hin].
    + injection Heq as <- <-. rewrite Range_reap_backlog_cons, Hdead.
      apply Range_reap_backlog_None. simpl. apply lookup_delete_eq.
    + rewrite Range_reap_backlog_cons. destruct (bl_alive v); now apply IH.
Qed.

Lemma Range_reap_backlog_alive (l : list (string * backlogBindWorker)) s key :
  (forall bl, (key, bl) ∈ l -> bl_alive bl = true) ->
  backlogWorker (Range_entries reap_backlog l s) !! key
  = backlogWorker s !! key.
Proof.
  revert s. induction l as [|[k v] l IH]; intros s Hall; [done|].
  assert (Hrest : forall bl, (key, bl) ∈ l -> bl_alive bl = true).
  { intros bl Hin. apply Hall. now apply list_elem_of_further. }
  rewrite Range_reap_backlog_cons. destruct (bl_alive v) eqn:Ev.
  - now apply IH.
  - rewrite IH by done. simpl. apply lookup_delete_ne. intros ->.
    specialize (Hall v (list_elem_of_here _ _)). congruence.
Qed.

(** The walk over the associations deletes from their map and from the
    reservations. *)
Lemma Range_reap_association_others (l : list (Z * udpAssociation)) s :
  backlogWorker (Range_entries reap_association l s) = backlogWorker s.
Proof.
  revert s. induction l as [|[k v] l IH]; intros s; [done|].
  rewrite Range_reap_association_cons. destruct (ua_alive v); [apply IH|].
  now rewrite IH.
Qed.

Lemma Range_reap_association_None (l : list (Z * udpAssociation)) s :
  (forall id, udpAssociations s !! id = None ->
     udpAssociations (Range_entries reap_association l s) !! id = None) /\
  (forall pair, reservedUdpAddr s !! pair = None ->
     reservedUdpAddr (Range_entries reap_association l s) !! pair = None).
Proof.
  revert s. induction l as [|[k v] l IH]; intros s; [done|].
  rewrite Range_reap_association_cons. destruct (ua_alive v); [apply IH|].
  destruct (IH {| backlogWorker := backlogWorker s;
                  reservedUdpAddr := delete (ua_pair v) (reservedUdpAddr s);
                  udpAssociations := delete k (udpAssociations s) |})
    as [IH1 IH2].
  split.
  - intros id Hid. apply IH1. simpl.
    destruct (decide (k = id)) as [->|Hne].
    + apply lookup_delete_eq.
    + rewrite lookup_delete_ne by done. exact Hid.
  - intros pair Hp. apply IH2. simpl.
    destruct (decide (ua_pair v = pair)) as [->|Hne].
    + apply lookup_delete_eq.
    + rewrite lookup_delete_ne by done. exact Hp.
Qed.

Lemma Range_reap_association_dead (l : list (Z * udpAssociation)) s id ua :
  (id, ua) ∈ l -> ua_alive ua = false ->
  udpAssociations (Range_entries reap_association l s) !! id = None /\
  reservedUdpAddr (Range_entries reap_association l s) !! ua_pair ua = None.
Proof.
  revert s. induction l as [|[k v] l IH]; intros s Hin Hdead.
  - inversion Hin.
  - apply elem_of_cons in Hin as [Heq|Hin].
    + injection Heq as <- <-. rewrite Range_reap_association_cons, Hdead.
      split; apply Range_reap_association_None; simpl; apply lookup_delete_eq.
    + rewrite Range_reap_association_cons. destruct (ua_alive v); now apply IH.
Qed.

Lemma Range_reap_association_alive (l : list (Z * udpAssociation)) s id :
  (forall ua, (id, ua) ∈ l -> ua_alive ua = true) ->
  udpAssociations (Range_entries reap_association l s) !! id
  = udpAssociations s !! id.
Proof.
  revert s. induction l as [|[k v] l IH]; intros s Hall; [done|].
  assert (Hrest : forall ua, (id, ua) ∈ l -> ua_alive ua = true).
  { intros ua Hin. apply Hall. now apply list_elem_of_further. }
  rewrite Range_reap_association_cons. destruct (ua_alive v) eqn:Ev.
  - now apply IH.
  - rewrite IH by done. simpl. apply lookup_delete_ne. intros ->.
    specialize (Hall v (list_elem_of_here _ _)). congruence.
Qed.

Lemma Range_reap_association_reserved (l : list (Z * udpAssociation)) s pair :
  (forall id ua, (id, ua) ∈ l -> ua_alive ua = false -> ua_pair ua <> pair) ->
  reservedUdpAddr (Range_entries reap_association l s) !! pair
  = reservedUdpAddr s !! pair.
Proof.
  revert s. induction l as [|[k v] l IH]; intros s Hall; [done|].
  assert (Hrest : forall id ua, (id, ua) ∈ l -> ua_alive ua = false ->
                                ua_pair ua <> pair).
  { intros id ua Hin. apply (Hall id). now apply list_elem_of_further. }
  rewrite Range_reap_association_cons. destruct (ua_alive v) eqn:Ev.
  - now apply IH.
  - rewrite IH by done. simpl. apply lookup_delete_ne.
    exact (Hall k v (list_elem_of_here _ _) Ev).
Qed.

End ReaperWalks.

Lemma ClearUnusedResource_ticks (n : nat) (rest : list ReaperSelect)
    (s : WorkerMaps) :
  ClearUnusedResource (repeat TickC n ++ rest) s
  = ClearUnusedResource rest (reaper_ticks n s).
Proof.
  revert s. induction n as [|n IH]; intros s; simpl; [reflexivity | apply IH].
Qed.

(** C6: one walk of the reaper deletes exactly the backlog workers and
    the associations whose alive flag is false and keeps the others as
    they are; with a deleted association goes the reservation under its
    pair; reservations under other pairs stay; nothing is added.  The
    loop makes one walk per tick and returns at the first cancellation
    of its context, and not before. *)
Theorem ClearUnusedResource_reaps (s : WorkerMaps) :
  (forall key bl, backlogWorker s !! key = Some bl ->
     backlogWorker (reaper_tick s) !! key
     = if bl_alive bl then Some bl else None) /\
  (forall key, backlogWorker s !! key = None ->
     backlogWorker (reaper_tick s) !! key = None) /\
  (forall id ua, udpAssociations s !! id = Some ua ->
     udpAssociations (reaper_tick s) !! id
     = if ua_alive ua then Some ua else None) /\
  (forall id, udpAssociations s !! id = None ->
     udpAssociations (reaper_tick s) !! id = None) /\
  (forall id ua, udpAssociations s !! id = Some ua -> ua_alive ua = false ->
     reservedUdpAddr (reaper_tick s) !! ua_pair ua = None) /\
  (forall pair,
     (forall id ua, udpAssociations s !! id = Some ua -> ua_alive ua = false ->
        ua_pair ua <> pair) ->
     reservedUdpAddr (reaper_tick s) !! pair = reservedUdpAddr s !! pair) /\
  (forall n rest,
     ClearUnusedResource (repeat TickC n ++ Ctx2Done :: rest) s
     = (true, reaper_ticks n s)) /\
  (forall n, ClearUnusedResource (repeat TickC n) s = (false, reaper_ticks n s)).
Proof.
  unfold reaper_tick, SyncMap_Range.
  set (s1 := Range_entries reap_backlog (map_to_list (backlogWorker s)) s).
  assert (Hres1 : reservedUdpAddr s1 = reservedUdpAddr s)
    by apply Range_reap_backlog_others.
  assert (Hudp1 : udpAssociations s1 = udpAssociations s)
    by apply Range_reap_backlog_others.
  rewrite Hudp1.
  repeat split.
  - intros key bl Hkey. rewrite Range_reap_association_others. subst s1.
    destruct (bl_alive bl) eqn:Ebl.
    + rewrite Range_reap_backlog_alive; [exact Hkey|].
      intros bl' Hin. apply elem_of_map_to_list in Hin. congruence.
    + apply Range_reap_backlog_dead with bl; [|exact Ebl].
      now apply elem_of_map_to_list.
  - intros key Hkey. rewrite Range_reap_association_others. subst s1.
    now apply Range_reap_backlog_None.
  - intros id ua Hid. destruct (ua_alive ua) eqn:Eua.
    + rewrite Range_reap_association_alive; [now rewrite Hudp1|].
      intros ua' Hin. apply elem_of_map_to_list in Hin. congruence.
    + apply Range_reap_association_dead with ua; [|exact Eua].
      now apply elem_of_map_to_list.
  - intros id Hid. apply Range_reap_association_None. now rewrite Hudp1.
  - intros id ua Hid Hdead.
    apply (Range_reap_association_dead _ s1 id ua); [|exact Hdead].
    now apply elem_of_map_to_list.
  - intros pair Hpair.
    rewrite Range_reap_association_reserved; [now rewrite Hres1|].
    intros id ua Hin. apply elem_of_map_to_list in Hin. now apply (Hpair id).
  - intros n rest. now rewrite ClearUnusedResource_ticks.
  - intros n. rewrite <- (app_nil_r (repeat TickC n)).
    now rewrite ClearUnusedResource_ticks.
Qed.

Lemma ClearUnusedResource_reaps_witness :
  udpAssociations sample_maps !! 11 = Some idle_association /\
  ua_alive idle_association = false /\
  udpAssociations (reaper_tick sample_maps) !! 11 = None /\
  reservedUdpAddr (reaper_tick sample_maps) !! ua_pair idle_association = None /\
  udpAssociations (reaper_tick sample_maps) !! 12 = Some busy_association.
Proof.
  assert (H11 : udpAssociations sample_maps !! 11 = Some idle_association)
    by reflexivity.
  assert (H12 : udpAssociations sample_maps !! 12 = Some busy_association)
    by reflexivity.
  destruct (ClearUnusedResource_reaps sample_maps)
    as [_ [_ [Hudp [_ [Hres _]]]]].
  split; [exact H11|]. split; [reflexivity|].
  split; [exact (Hudp 11 idle_association H11)|].
  split; [exact (Hres 11 idle_association H11 eq_refl)|].
  exact (Hudp 12 busy_association H12).
Defined.

(** ** Relay engine *)

(** A direction leaves the Close calls of the endpoint it writes alone. *)
Lemma relayOneDirection_loop_closes rs (c2 : Conn) :
  closes (snd (relayOneDirection_loop rs c2)) = closes c2.
Proof.
  revert c2. induction rs as [|[data eRead] rest IH]; intros c2; [reflexivity|].
  cbn [relayOneDirection_loop].
  destruct (0 <? length data)%nat.
  - pose proof (closes_Conn_Write (Raw data) c2) as Hc.
    destruct (Conn_Write (Raw data) c2) as [[nWrite eWrite] c2'].
    simpl in Hc.
    destruct eWrite as [e|]; [exact Hc|].
    destruct (negb (bool_decide (Some (length data) = nWrite))); [exact Hc|].
    destruct eRead as [e|]; [exact Hc|]. rewrite IH. exact Hc.
  - destruct eRead as [e|]; [reflexivity | apply IH].
Qed.




Lemma relayOneDirection_loop_reads rs (c2 : Conn) :
  reads (snd (relayOneDirection_loop rs c2)) = reads c2.
Proof.
  revert c2. induction rs as [|[data eRead] rest IH]; intros c2; [reflexivity|].
  cbn [relayOneDirection_loop].
  destruct (0 <? length data)%nat.
  - pose proof (reads_Conn_Write (Raw data) c2) as Hc.
    destruct (Conn_Write (Raw data) c2) as [[nWrite eWrite] c2'].
    simpl in Hc.
    destruct eWrite as [e|]; [exact Hc|].
    destruct (negb (bool_decide (Some (length data) = nWrite))); [exact Hc|].
    destruct eRead as [e|]; [exact Hc|]. rewrite IH. exact Hc.
  - destruct eRead as [e|]; [reflexivity | apply IH].
Qed.

(** What a direction leaves untouched on its two endpoints. *)
Lemma relayOneDirection_frame (c1 c2 : Conn) :
  wrres (snd (fst (relayOneDirection c1 c2))) = wrres c1 /\
  calls (snd (fst (relayOneDirection c1 c2))) = calls c1 /\
  reads (snd (relayOneDirection c1 c2)) = reads c2 /\
  closes (snd (relayOneDirection c1 c2)) = closes c2.
Proof.
  unfold relayOneDirection.
  pose proof (relayOneDirection_loop_reads (reads c1) c2) as Hr.
  pose proof (relayOneDirection_loop_closes (reads c1) c2) as Hc.
  destruct (relayOneDirection_loop (reads c1) c2) as [[e rest] c2'].
  simpl in *. auto.
Qed.





(** ** Handshake driver *)

(** The options [setAuthMethodInfo] puts on a reply that had none. *)
Lemma setAuthMethodInfo_options (arep : AuthenticationReply)
    (result : ServerAuthenticationResult) :
  Options arep = [] ->
  (forall m, In (AuthenticationMethodSelection m)
                (Options (setAuthMethodInfo arep result))
             <-> m = SelectedMethod result /\ m <> 0 /\ m <> 255) /\
  (forall m d, In (AuthenticationData m d)
                  (Options (setAuthMethodInfo arep result))
               <-> m = SelectedMethod result /\ MethodData result = Some d).
Proof.
  intros Hnil. unfold setAuthMethodInfo, Options_Add.
  destruct (Z.eqb_spec (SelectedMethod result) 0) as [H0|H0];
    destruct (Z.eqb_spec (SelectedMethod result) 255) as [H255|H255];
    destruct (MethodData result) as [data|]; simpl; rewrite Hnil; simpl;
    split; intros; split; intros H;
    repeat match goal with
           | H : _ \/ _ |- _ => destruct H
           | H : _ /\ _ |- _ => destruct H
           | H : False |- _ => destruct H
           | H : AuthenticationMethodSelection _ = _ |- _ => inversion H; clear H
           | H : AuthenticationData _ _ = _ |- _ => inversion H; clear H
           | H : Some _ = Some _ |- _ => inversion H; clear H
           end;
    subst; try discriminate; try lia; auto.
Qed.




Lemma CancellableDefer_cancelled (f : Conn -> Conn) (c : Conn) :
  CancellableDefer_Defer (CancellableDefer_Cancel NewCancellableDefer) f c = c.
Proof. reflexivity. Qed.






(** C8: when the request does not parse because of its address type, the
    driver writes an authentication reply of type fail, then an operation
    reply with code AddressNotSupported, then closes the connection, and
    returns without a [SocksConn]; on a parse error that is neither that
    nor a version mismatch it only closes the connection. *)
Theorem handshakeStream_parse_error (s : ServerWorker) (inp : StreamInput)
    (conn : Conn) (prevAuth : option ServerAuthenticationResult) (err : error) :
  ParseRequestFrom inp
    (IgnoreFragmentedRequest s
     && match prevAuth with Some _ => true | None => false end) = inr err ->
  (err = ErrAddressTypeNotSupport ->
   exists conn',
     handshakeStream s inp conn prevAuth = (Returns (None, 0, None), conn') /\
     calls conn'
     = calls conn
       ++ [Wrote (AuthReplyMarshal
                    {| Type_ := AuthenticationReplyFail; Options := [] |});
           Wrote (OperationReplyMarshal OperationReplyAddressNotSupported);
           Closed]) /\
  ((forall ver consumed, err <> ErrVersionMismatch ver consumed) ->
   err <> ErrAddressTypeNotSupport ->
   exists conn',
     handshakeStream s inp conn prevAuth = (Returns (None, 0, None), conn') /\
     calls conn' = calls conn ++ [Closed]).
Proof.
  intros Hparse. unfold handshakeStream, handshakeStream_body.
  rewrite Hparse. split.
  - intros ->. cbn [handleRequestError]. eexists. split; [reflexivity|].
    rewrite CancellableDefer_cancelled, calls_Conn_Close, !calls_Conn_Write_.
    now rewrite <- !app_assoc.
  - intros Hvm Haddr.
    destruct err; try (eexists; split; reflexivity).
    + exfalso. exact (Hvm _ _ eq_refl).
    + contradiction.
Qed.

(** A stream whose request has an address type the codec does not know. *)
Lemma handshakeStream_parse_error_witness :
  exists conn',
    handshakeStream sample_worker
      {| ParseRequestFrom := fun _ => inr ErrAddressTypeNotSupport;
         initialData := inl [] |} fresh_conn None
    = (Returns (None, 0, None), conn') /\
    calls conn'
    = [] ++ [Wrote (AuthReplyMarshal
                      {| Type_ := AuthenticationReplyFail; Options := [] |});
             Wrote (OperationReplyMarshal OperationReplyAddressNotSupported);
             Closed].
Proof.
  exact (proj1 (handshakeStream_parse_error sample_worker
                  {| ParseRequestFrom := fun _ => inr ErrAddressTypeNotSupport;
                     initialData := inl [] |}
                  fresh_conn None ErrAddressTypeNotSupport eq_refl) eq_refl).
Defined.

(** C1, what the code does: when the request parses, the initial data
    are read, the client authenticates and the rule refuses, the driver
    writes the operation reply NotAllowedByRule, closes the stream and
    returns the command code and the authentication result without a
    [SocksConn]; [ServeStream] then closes the stream again and returns,
    and has asked nothing of its collaborators: no command handler was
    called, and [SessionConnClose] was not called either. *)
Theorem ServeStream_rule_denied (s : ServerWorker) (inp : StreamInput)
    (conn conn1 : Conn) (req : Request) (ar : ServerAuthenticationResult)
    (rule : SocksConn -> bool) :
  ParseRequestFrom inp false = inl req ->
  (forall n, AuthenticationMethodAdvertisement_InitialDataLength req = Some n ->
             exists data, io_ReadFull inp n = inl data) ->
  authn s conn req = (Some ar, conn1) ->
  Success ar = true ->
  Rule s = Some rule ->
  (forall cc, Request_ cc = req -> rule cc = false) ->
  handshakeStream s inp conn None
  = (Returns (None, CommandCode req, Some ar),
     Conn_Close
       (Conn_Write_ (OperationReplyMarshal OperationReplyNotAllowedByRule)
          conn1)) /\
  ServeStream s inp conn
  = Returns
      {| w_conn :=
           Conn_Close
             (Conn_Close
                (Conn_Write_
                   (OperationReplyMarshal OperationReplyNotAllowedByRule)
                   conn1));
         w_trace := [] |}.
Proof.
  intros Hparse Hinit Hauth Hsucc Hrule Hdeny.
  assert (Hhs : handshakeStream s inp conn None
                = (Returns (None, CommandCode req, Some ar),
                   Conn_Close
                     (Conn_Write_
                        (OperationReplyMarshal OperationReplyNotAllowedByRule)
                        conn1))).
  { unfold handshakeStream, handshakeStream_body.
    rewrite andb_false_r, Hparse.
    destruct (AuthenticationMethodAdvertisement_InitialDataLength req)
      as [n|] eqn:En.
    - destruct (Hinit n eq_refl) as [data ->].
      rewrite Hauth, Hsucc, Hrule. cbn [negb].
      rewrite Hdeny by reflexivity. reflexivity.
    - rewrite Hauth, Hsucc, Hrule. cbn [negb].
      rewrite Hdeny by reflexivity. reflexivity. }
  split; [exact Hhs|].
  unfold ServeStream. now rewrite Hhs.
Qed.

Lemma ServeStream_rule_denied_witness :
  ServeStream deny_all_worker connect_input fresh_conn
  = Returns
      {| w_conn :=
           {| reads := []; wrres := [];
              calls :=
                [Wrote (AuthReplyMarshal
                          {| Type_ := AuthenticationReplySuccess;
                             Options := [] |});
                 Wrote (OperationReplyMarshal OperationReplyNotAllowedByRule);
                 Closed; Closed] |};
         w_trace := [] |}.
Proof.
  refine (proj2 (ServeStream_rule_denied deny_all_worker connect_input
                   fresh_conn _ connect_request sample_result
                   (fun _ => false) eq_refl _ eq_refl eq_refl eq_refl _)).
  - intros n Hn. discriminate Hn.
  - intros cc _. reflexivity.
Defined.

(** The same stream on the worker without the rule: the handler is
    called and the session is told that the connection has closed. *)
Lemma ServeStream_allowed :
  exists cc, 
    ServeStream sample_worker connect_input fresh_conn
    = Returns
        {| w_conn :=
             {| reads := []; wrres := [];
                calls :=
                  [Wrote (AuthReplyMarshal
                            {| Type_ := AuthenticationReplySuccess;
                               Options := [] |});
                   Closed] |};
           w_trace := [CommandHandlerCall 1 cc; SessionConnClose [7; 7]] |}.
Proof. eexists. reflexivity. Qed.

(** What [setAuthMethodInfo] gives a fresh reply of either type. *)
Lemma setAuthMethodInfo_new (t : AuthenticationReplyType)
    (result : ServerAuthenticationResult) :
  (has_AuthenticationMethodSelection
     (setAuthMethodInfo (NewAuthenticationReplyWithType t) result)
   <-> SelectedMethod result <> 0 /\ SelectedMethod result <> 255) /\
  (has_AuthenticationData
     (setAuthMethodInfo (NewAuthenticationReplyWithType t) result)
   <-> MethodData result <> None).
Proof.
  destruct (setAuthMethodInfo_options (NewAuthenticationReplyWithType t) result
              eq_refl) as [Hsel Hdata].
  unfold has_AuthenticationMethodSelection, has_AuthenticationData. split; split.
  - intros [m Hm]. apply Hsel in Hm as [-> Hm]. exact Hm.
  - intros H. exists (SelectedMethod result). apply Hsel. tauto.
  - intros [m [d Hm]]. apply Hdata in Hm as [_ Hm]. congruence.
  - intros H. destruct (MethodData result) as [d|] eqn:E; [|congruence].
    exists (SelectedMethod result), d. apply Hdata. auto.
Qed.

Lemma has_options_set_Type (t : AuthenticationReplyType) (r : AuthenticationReply) :
  (has_AuthenticationMethodSelection (set_Type t r)
   <-> has_AuthenticationMethodSelection r) /\
  (has_AuthenticationData (set_Type t r) <-> has_AuthenticationData r).
Proof. split; reflexivity. Qed.

(** C10, as the code has it.  The first reply [authn] writes for a result
    that succeeded or asks for a second stage carries an
    AuthenticationMethodSelection option exactly when the selected method
    is neither 0 nor 0xff, and an AuthenticationData option exactly when
    the method data are not nil; so does the reply written for the result
    of the second stage.  The reply for a one-stage failure, and the one
    written when the second stage ends in an error, carry no options. *)
Theorem authn_reply_options (s : ServerWorker) (conn : Conn) (req : Request)
    (result1 : ServerAuthenticationResult) (sac : nat) :
  Authenticate (Authenticator s) req = (result1, sac) ->
  exists reply rest,
    outbox (snd (authn s conn req))
    = outbox conn ++ AuthReplyMarshal reply :: rest /\
    (Success result1 = true \/ Continue result1 = true ->
     (has_AuthenticationMethodSelection reply
      <-> SelectedMethod result1 <> 0 /\ SelectedMethod result1 <> 255) /\
     (has_AuthenticationData reply <-> MethodData result1 <> None)) /\
    (Success result1 = false -> Continue result1 = false ->
     Options reply = [] /\ rest = []) /\
    (forall p, In p rest ->
       exists reply2, p = AuthReplyMarshal reply2 /\
         match ContinueAuthenticate (Authenticator s) sac req with
         | inl result2 =>
             (has_AuthenticationMethodSelection reply2
              <-> SelectedMethod result2 <> 0 /\ SelectedMethod result2 <> 255) /\
             (has_AuthenticationData reply2 <-> MethodData result2 <> None)
         | inr _ => Options reply2 = []
         end).
Proof.
  intros Hauth. unfold authn. rewrite Hauth.
  destruct (Success result1) eqn:Esucc.
  { (* one stage, success *)
    eexists; exists [].
    match goal with
    | |- context [Conn_Write ?p conn] =>
        pose proof (outbox_Conn_Write p conn) as Hout;
        destruct (Conn_Write p conn) as [[n [e|]] conn1]
    end; simpl in Hout |- *;
      (split; [exact Hout|]);
      (split; [intros _; apply setAuthMethodInfo_new|]);
      (split; [discriminate|]); intros p [].
  }
  destruct (Continue result1) eqn:Econt; cbn [negb].
  2:{ (* one stage, failure *)
    eexists; exists [].
    match goal with
    | |- context [Conn_Write ?p conn] =>
        pose proof (outbox_Conn_Write p conn) as Hout;
        destruct (Conn_Write p conn) as [[n [e|]] conn1]
    end; simpl in Hout |- *;
      (split; [exact Hout|]);
      (split; [intros [H|H]; discriminate H|]);
      (split; [auto|]); intros p [].
  }
  (* two stages *)
  match goal with
  | |- context [Conn_Write ?p conn] =>
      pose proof (outbox_Conn_Write p conn) as Hout;
      destruct (Conn_Write p conn) as [[n [e|]] conn1]
  end; simpl in Hout.
  { eexists; exists []. simpl.
    split; [exact Hout|].
    split; [intros _; apply setAuthMethodInfo_new|].
    split; [discriminate|]. intros p []. }
  destruct (ContinueAuthenticate (Authenticator s) sac req) as [result2|err].
  - match goal with
    | |- context [Conn_Write (AuthReplyMarshal ?r2) conn1] =>
        pose proof (outbox_Conn_Write (AuthReplyMarshal r2) conn1) as Hout2;
        eexists; exists [AuthReplyMarshal r2];
        destruct (Conn_Write (AuthReplyMarshal r2) conn1) as [[n2 [e2|]] conn2]
    end; simpl in Hout2 |- *;
      (split; [rewrite Hout2, Hout, <- app_assoc; reflexivity|]);
      (split; [intros _; apply setAuthMethodInfo_new|]);
      (split; [discriminate|]);
      intros p [<-|[]]; eexists; (split; [reflexivity|]);
      destruct (Success result2);
      destruct (setAuthMethodInfo_new AuthenticationReplySuccess result2)
        as [Hs Hd]; split; assumption.
  - eexists; eexists. simpl.
    split; [rewrite outbox_Conn_Write_, Hout, <- app_assoc; reflexivity|].
    split; [intros _; apply setAuthMethodInfo_new|].
    split; [discriminate|].
    intros p [<-|[]]. eexists. split; reflexivity.
Qed.

Lemma authn_reply_options_witness :
  exists reply rest,
    outbox (snd (authn sample_worker fresh_conn connect_request))
    = outbox fresh_conn ++ AuthReplyMarshal reply :: rest /\
    (has_AuthenticationMethodSelection reply
     <-> SelectedMethod sample_result <> 0 /\ SelectedMethod sample_result <> 255).
Proof.
  destruct (authn_reply_options sample_worker fresh_conn connect_request
              sample_result 0%nat eq_refl)
    as [reply [rest [Hout [Hopt _]]]].
  exists reply, rest. split; [exact Hout|].
  exact (proj1 (Hopt (or_introl eq_refl))).
Defined.

(** C10 as stated fails for a one-stage failure: the selected method is 2
    and there are method data, and the reply the driver writes carries
    neither option. *)
Lemma authn_failure_reply_has_no_options :
  Authenticate (Authenticator refusing_worker) connect_request
  = (refused_result, 0%nat) /\
  SelectedMethod refused_result <> 0 /\
  SelectedMethod refused_result <> 255 /\
  MethodData refused_result <> None /\
  outbox (snd (authn refusing_worker fresh_conn connect_request))
  = [AuthReplyMarshal {| Type_ := AuthenticationReplyFail; Options := [] |}] /\
  ~ has_AuthenticationMethodSelection
      {| Type_ := AuthenticationReplyFail; Options := [] |} /\
  ~ has_AuthenticationData
      {| Type_ := AuthenticationReplyFail; Options := [] |}.
Proof.
  repeat split; try discriminate.
  - intros [m []].
  - intros [m [d []]].
Qed.

(* ===================================================================== *)
(** * Further properties *)
(* ===================================================================== *)

(** ** Relay engine: what is forwarded *)

Lemma raw_bytes_app (l1 l2 : list ConnCall) :
  raw_bytes (l1 ++ l2) = raw_bytes l1 ++ raw_bytes l2.
Proof.
  induction l1 as [|[[bs|r|c]|] l1 IH]; simpl; rewrite ?IH, ?app_assoc;
    reflexivity.
Qed.

Lemma raw_bytes_chunks (l : list (list Z * option error)) :
  raw_bytes (map (fun d => Wrote (Raw d)) (chunks l)) = concat (map fst l).
Proof.
  unfold chunks. induction l as [|[d e] l IH]; [reflexivity|].
  simpl. destruct d as [|b d]; simpl; [exact IH|]. now rewrite IH.
Qed.

(** One run of the loop splits the read script into what it consumed and
    what it left, and appends to the log of the written endpoint one
    Write per consumed read that delivered bytes, in order. *)
Lemma relayOneDirection_loop_log rs (c2 : Conn) :
  exists consumed,
    rs = consumed ++ snd (fst (relayOneDirection_loop rs c2)) /\
    calls (snd (relayOneDirection_loop rs c2))
    = calls c2 ++ map (fun d => Wrote (Raw d)) (chunks consumed) /\
    (fst (fst (relayOneDirection_loop rs c2)) = None ->
     snd (fst (relayOneDirection_loop rs c2)) = []).
Proof.
  revert c2. induction rs as [|[data eRead] rest IH]; intros c2.
  - exists []. simpl. rewrite app_nil_r. auto.
  - cbn [relayOneDirection_loop]. unfold chunks.
    destruct (0 <? length data)%nat eqn:Elen.
    + pose proof (calls_Conn_Write (Raw data) c2) as Hc.
      destruct (Conn_Write (Raw data) c2) as [[nWrite eWrite] c2'].
      simpl in Hc.
      assert (Hone : exists consumed,
                (data, eRead) :: rest = consumed ++ rest /\
                calls c2'
                = calls c2
                  ++ map (fun d => Wrote (Raw d))
                       (List.filter (fun d => (0 <? length d)%nat)
                          (map fst consumed))).
      { exists [(data, eRead)]. simpl. rewrite Elen. auto. }
      destruct eWrite as [e|].
      { destruct Hone as [k [H1 H2]]. exists k. simpl.
        repeat split; [exact H1 | exact H2 | discriminate]. }
      destruct (negb (bool_decide (Some (length data) = nWrite))).
      { destruct Hone as [k [H1 H2]]. exists k. simpl.
        repeat split; [exact H1 | exact H2 | discriminate]. }
      destruct eRead as [e|].
      { destruct Hone as [k [H1 H2]]. exists k. simpl.
        repeat split; [exact H1 | exact H2 | discriminate]. }
      destruct (IH c2') as [k [H1 [H2 H3]]].
      exists ((data, None) :: k). split; [|split].
      * simpl. now rewrite <- H1.
      * rewrite H2, Hc. simpl. rewrite Elen. unfold chunks.
        now rewrite <- app_assoc.
      * exact H3.
    + destruct eRead as [e|].
      { exists [(data, Some e)]. simpl. rewrite Elen. rewrite app_nil_r.
        repeat split; discriminate. }
      destruct (IH c2) as [k [H1 [H2 H3]]].
      exists ((data, None) :: k). split; [|split].
      * simpl. now rewrite <- H1.
      * rewrite H2. simpl. now rewrite Elen.
      * exact H3.
Qed.

Lemma relayOneDirection_forwards_stream_aux (c1 c2 : Conn) :
  exists consumed,
    reads c1 = consumed ++ reads (snd (fst (relayOneDirection c1 c2))) /\
    calls (snd (relayOneDirection c1 c2))
    = calls c2 ++ map (fun d => Wrote (Raw d)) (chunks consumed).
Proof.
  unfold relayOneDirection.
  destruct (relayOneDirection_loop_log (reads c1) c2) as [k [H1 [H2 _]]].
  destruct (relayOneDirection_loop (reads c1) c2) as [[e rest] c2'].
  simpl in *. exists k. split; assumption.
Qed.

(** X1: a direction hands the bytes it read to the endpoint it writes,
    all of them, once, in the order they came: the reads it consumed and
    the reads it left make up the script, one Write is made per consumed
    read that delivered bytes, and the byte stream written is the byte
    stream read.  While it has not returned it has left nothing unread. *)
Theorem relayOneDirection_forwards_stream (c1 c2 : Conn) :
  exists consumed,
    reads c1 = consumed ++ reads (snd (fst (relayOneDirection c1 c2))) /\
    calls (snd (relayOneDirection c1 c2))
    = calls c2 ++ map (fun d => Wrote (Raw d)) (chunks consumed) /\
    raw_bytes (calls (snd (relayOneDirection c1 c2)))
    = raw_bytes (calls c2) ++ concat (map fst consumed) /\
    (fst (fst (relayOneDirection c1 c2)) = None ->
     reads (snd (fst (relayOneDirection c1 c2))) = []).
Proof.
  unfold relayOneDirection.
  destruct (relayOneDirection_loop_log (reads c1) c2) as [k [H1 [H2 H3]]].
  destruct (relayOneDirection_loop (reads c1) c2) as [[e rest] c2'].
  simpl in *. exists k. repeat split; try assumption.
  now rewrite H2, raw_bytes_app, raw_bytes_chunks.
Qed.

Lemma relayOneDirection_forwards_stream_witness :
  reads (snd (fst (relayOneDirection short_write_client fresh_conn))) = [].
Proof.
  destruct (relayOneDirection_forwards_stream short_write_client fresh_conn)
    as [consumed [_ [_ [_ H]]]].
  apply H. reflexivity.
Defined.

(** ** Relay engine: the two directions side by side *)

(** What a run of the loop returns, leaves unread and appends to the log
    is fixed by the read script and the write script; the endpoint it
    writes keeps its own read script. *)
Lemma relayOneDirection_loop_shape rs (ws : list (option nat * option error)) :
  exists e rest ws' K,
    forall c2, wrres c2 = ws ->
      relayOneDirection_loop rs c2
      = (e, rest, {| reads := reads c2; wrres := ws'; calls := calls c2 ++ K |}).
Proof.
  revert ws. induction rs as [|[data eRead] rs IH]; intros ws.
  - exists None, [], ws, []. intros [rd w cl] <-. simpl.
    now rewrite app_nil_r.
  - set (ws1 := match ws with [] => [] | _ :: t => t end).
    set (ans := match ws with
                | [] => (Some (length data), @None error)
                | (n, e) :: _ =>
                    (match n with Some k => Some k | None => Some (length data) end, e)
                end).
    assert (Hw : forall c2, wrres c2 = ws ->
              Conn_Write (Raw data) c2
              = (ans, {| reads := reads c2; wrres := ws1;
                         calls := calls c2 ++ [Wrote (Raw data)] |})).
    { intros [rd w cl] <-. unfold Conn_Write, ans, ws1. simpl.
      destruct w as [|[n e] t]; reflexivity. }
    destruct (IH ws1) as [e1 [rest1 [ws1' [K1 H1]]]].
    destruct (IH ws) as [e0 [rest0 [ws0' [K0 H0]]]].
    destruct (0 <? length data)%nat eqn:Elen.
    + destruct ans as [nWrite eWrite] eqn:Eans.
      destruct eWrite as [e|].
      { exists (Some e), rs, ws1, [Wrote (Raw data)]. intros c2 Hc.
        cbn [relayOneDirection_loop]. rewrite Elen, (Hw c2 Hc). reflexivity. }
      destruct (negb (bool_decide (Some (length data) = nWrite))) eqn:Esh.
      { exists (Some io_ErrShortWrite), rs, ws1, [Wrote (Raw data)].
        intros c2 Hc. cbn [relayOneDirection_loop].
        rewrite Elen, (Hw c2 Hc), Esh. reflexivity. }
      destruct eRead as [e|].
      { exists (Some e), rs, ws1, [Wrote (Raw data)]. intros c2 Hc.
        cbn [relayOneDirection_loop]. rewrite Elen, (Hw c2 Hc), Esh.
        reflexivity. }
      exists e1, rest1, ws1', (Wrote (Raw data) :: K1). intros c2 Hc.
      cbn [relayOneDirection_loop]. rewrite Elen, (Hw c2 Hc), Esh.
      rewrite H1 by reflexivity. simpl. now rewrite <- app_assoc.
    + destruct eRead as [e|].
      { exists (Some e), rs, ws, []. intros [rd w cl] <-.
        cbn [relayOneDirection_loop]. rewrite Elen. simpl.
        now rewrite app_nil_r. }
      exists e0, rest0, ws0', K0. intros c2 Hc.
      cbn [relayOneDirection_loop]. rewrite Elen. now apply H0.
Qed.

Lemma relayOneDirection_shape (rs : list (list Z * option error))
    (ws : list (option nat * option error)) :
  exists e rest ws' K,
    forall c1 c2, reads c1 = rs -> wrres c2 = ws ->
      relayOneDirection c1 c2
      = (e,
         {| reads := rest; wrres := wrres c1; calls := calls c1 |},
         {| reads := reads c2; wrres := ws'; calls := calls c2 ++ K |}).
Proof.
  destruct (relayOneDirection_loop_shape rs ws) as [e [rest [ws' [K H]]]].
  exists e, rest, ws', K. intros c1 c2 <- Hc2.
  unfold relayOneDirection. now rewrite (H c2 Hc2).
Qed.

(** X2: the two directions of a relay work on different parts of the two
    endpoints, so the relay is the same seen from either side: giving
    the endpoints in the other order, and naming the first direction to
    report accordingly, returns the same value and leaves the same two
    endpoints. *)
Theorem relay_symmetric (sel : WatcherSelect) (c r : Conn) :
  relay (swap_select sel) r c
  = (fst (fst (relay sel c r)), snd (relay sel c r), snd (fst (relay sel c r))).
Proof.
  destruct (relayOneDirection_shape (reads c) (wrres r))
    as [e1 [rest1 [wr' [K1 H1]]]].
  destruct (relayOneDirection_shape (reads r) (wrres c))
    as [e2 [rest2 [wc' [K2 H2]]]].
  unfold relay.
  rewrite (H1 c r eq_refl eq_refl), (H2 r c eq_refl eq_refl).
  rewrite (H2 {| reads := reads r; wrres := wr'; calls := calls r ++ K1 |}
              {| reads := rest1; wrres := wrres c; calls := calls c |}
              eq_refl eq_refl).
  rewrite (H1 {| reads := reads c; wrres := wc'; calls := calls c ++ K2 |}
              {| reads := rest2; wrres := wrres r; calls := calls r |}
              eq_refl eq_refl).
  cbn [reads wrres calls].
  destruct e1 as [e1|], e2 as [e2|]; cbn [fst snd]; try reflexivity.
  destruct sel as [e|[|]]; reflexivity.
Qed.

(** X3: when the relay returns, the log of each endpoint is what it was
    before, then one Write for each read of the other endpoint that
    delivered bytes and was consumed, in order, then one Close: nothing
    is written after the Close and nothing is closed twice. *)
Theorem relay_log_on_return (sel : WatcherSelect) (c r : Conn)
    (res : option error) (c' r' : Conn) :
  relay sel c r = (Some res, c', r') ->
  exists from_c from_r,
    reads c = from_c ++ reads c' /\
    reads r = from_r ++ reads r' /\
    calls r' = calls r ++ map (fun d => Wrote (Raw d)) (chunks from_c) ++ [Closed] /\
    calls c' = calls c ++ map (fun d => Wrote (Raw d)) (chunks from_r) ++ [Closed].
Proof.
  intros Hrelay. unfold relay in Hrelay.
  destruct (relayOneDirection_forwards_stream_aux c r) as [k1 [Hk1 Hc1]].
  destruct (relayOneDirection_frame c r) as [_ [Hcalls1 [Hr1 _]]].
  destruct (relayOneDirection c r) as [[e1 c1] r1]. simpl in *.
  destruct (relayOneDirection_forwards_stream_aux r1 c1) as [k2 [Hk2 Hc2]].
  destruct (relayOneDirection_frame r1 c1) as [_ [Hcalls2 [Hr2 _]]].
  destruct (relayOneDirection r1 c1) as [[e2 r2] c2]. simpl in *.
  destruct e1 as [e1|]; [|discriminate].
  destruct e2 as [e2|]; [|discriminate].
  injection Hrelay as _ <- <-.
  exists k1, k2. rewrite !calls_Conn_Close. cbn [reads Conn_Close].
  repeat split.
  - now rewrite Hr2.
  - now rewrite <- Hr1.
  - now rewrite Hcalls2, Hc1, <- app_assoc.
  - now rewrite Hc2, Hcalls1, <- app_assoc.
Qed.

Lemma relay_log_on_return_witness :
  relay (ErrChFirst ClientToRemote) two_chunk_client ended_conn
  = (Some None,
     {| reads := []; wrres := []; calls := [Closed] |},
     {| reads := []; wrres := [];
        calls := [Wrote (Raw [1; 2; 3]); Wrote (Raw [4; 5]); Closed] |}) /\
  exists from_c from_r,
    reads two_chunk_client = from_c ++ [] /\
    reads ended_conn = from_r ++ [] /\
    [Wrote (Raw [1; 2; 3]); Wrote (Raw [4; 5]); Closed]
    = [] ++ map (fun d => Wrote (Raw d)) (chunks from_c) ++ [Closed] /\
    [Closed] = [] ++ map (fun d => Wrote (Raw d)) (chunks from_r) ++ [Closed].
Proof.
  split; [reflexivity|].
  exact (relay_log_on_return (ErrChFirst ClientToRemote) two_chunk_client
           ended_conn None
           {| reads := []; wrres := []; calls := [Closed] |}
           {| reads := []; wrres := [];
              calls := [Wrote (Raw [1; 2; 3]); Wrote (Raw [4; 5]); Closed] |}
           eq_refl).
Defined.

(** ** Dial errors to reply codes: the codes that can come out *)

(** X4: whatever the error and the platform's translation of error
    numbers, the conversion gives one of six codes: Success,
    ServerFailure, NetworkUnreachable, HostUnreachable, ConnectionRefused
    or Timeout; it never gives a code of the handshake (NotAllowedByRule,
    CommandNotSupported, AddressNotSupported) nor TTLExpired, and an
    error that is not a [net.Error] always gives ServerFailure. *)
Theorem getReplyCode_range (conv : Z -> Z) (err : option error) :
  In (getReplyCode conv err)
     [OperationReplySuccess; OperationReplyServerFailure;
      OperationReplyNetworkUnreachable; OperationReplyHostUnreachable;
      OperationReplyConnectionRefused; OperationReplyTimeout] /\
  (forall e, err = Some e -> as_net_Error e = None ->
     getReplyCode conv err = OperationReplyServerFailure).
Proof.
  split.
  - destruct err as [e|]; [|simpl; auto]. simpl.
    destruct (as_net_Error e) as [[|]|]; [simpl; auto 7 | | simpl; auto].
    destruct e as [| | | | | | | | | |t [[errno|]|]]; try (simpl; auto).
    destruct (conv errno =? ENETUNREACH); [simpl; auto|].
    destruct (conv errno =? EHOSTUNREACH); [simpl; auto 7|].
    destruct (conv errno =? ECONNREFUSED); [simpl; auto 7|].
    destruct (conv errno =? ETIMEDOUT); simpl; auto 7.
  - intros e -> He. simpl. now rewrite He.
Qed.

Lemma getReplyCode_range_witness :
  getReplyCode_posix (Some io_ErrUnexpectedEOF) = OperationReplyServerFailure.
Proof.
  exact (proj2 (getReplyCode_range (fun n => n) (Some io_ErrUnexpectedEOF))
           io_ErrUnexpectedEOF eq_refl eq_refl).
Defined.

(** ** ICMP errors to UDP errors: results, panics and delivery *)

(** X5: what [convertICMPError] returns hangs together.  A code other
    than zero comes only for IP version 4 or 6, always with the reporter
    of that version built from the reporting address, and with the data
    of the message body as header, which is nil when the body carries no
    data.  With code zero the header is either nil, and then there is no
    reporter, or empty and not nil.  For any other IP version the result
    is code zero, no reporter and the empty header. *)
Theorem convertICMPError_result (msg : Message) (ip : list Z) (ver : Z)
    (code : UDPErrorType) (reporter : option SocksAddr)
    (hdr : option (list Z)) :
  convertICMPError msg ip ver = Returns (code, reporter, hdr) ->
  (code <> UDPErrorType_0 ->
   (ver = 4 /\ reporter = reporter4 ip \/ ver = 6 /\ reporter = reporter6 ip) /\
   (Body msg = DstUnreach hdr \/ Body msg = TimeExceeded hdr)) /\
  (code = UDPErrorType_0 ->
   hdr = None /\ reporter = None \/ hdr = Some []) /\
  (ver <> 4 -> ver <> 6 ->
   code = UDPErrorType_0 /\ reporter = None /\ hdr = Some []).
Proof.
  unfold convertICMPError, with_hdr, assert_DstUnreach, assert_TimeExceeded,
    reporter4, reporter6.
  destruct (Z.eqb_spec ver 4) as [->|H4];
    [|destruct (Z.eqb_spec ver 6) as [->|H6]];
    repeat match goal with
           | |- context [ICMPType_eqb ?a ?b] => destruct (ICMPType_eqb a b)
           | |- context [Code msg =? ?k] => destruct (Code msg =? k)
           end;
    destruct (Body msg) as [d|d|m d|];
    intros H; inversion H; subst;
    (split; [|split]); intros; try congruence; try lia;
    repeat split; try congruence; auto.
Qed.

Lemma convertICMPError_result_witness :
  (4 = 4 /\ reporter4 [192; 0; 2; 1] = reporter4 [192; 0; 2; 1] \/
   4 = 6 /\ reporter4 [192; 0; 2; 1] = reporter6 [192; 0; 2; 1]) /\
  (DstUnreach None = DstUnreach None \/ DstUnreach None = TimeExceeded None).
Proof.
  exact (proj1 (convertICMPError_result
                  (parsed_message ipv4_ICMPTypeDestinationUnreachable 1 0 None)
                  [192; 0; 2; 1] 4 UDPErrorHostUnreachable
                  (reporter4 [192; 0; 2; 1]) None eq_refl)
           ltac:(discriminate)).
Defined.

(** X6: on the messages the ICMP parser builds, [convertICMPError]
    panics in exactly one case, the ICMPv6 Packet Too Big message read
    as version 6; every other type, code and version returns. *)
Theorem convertICMPError_panics_only_PacketTooBig (t : ICMPType)
    (code mtu : Z) (data : option (list Z)) (ip : list Z) (ver : Z) :
  convertICMPError (parsed_message t code mtu data) ip ver = Panics
  <-> ver = 6 /\ t = ipv6_ICMPTypePacketTooBig.
Proof.
  split.
  - unfold convertICMPError, parsed_message, parsed_body, with_hdr,
      assert_DstUnreach, assert_TimeExceeded. cbn [Type__ Code Body].
    destruct t as [n|n]; cbn [ICMPType_eqb ipv4_ICMPTypeDestinationUnreachable
      ipv4_ICMPTypeTimeExceeded ipv6_ICMPTypeDestinationUnreachable
      ipv6_ICMPTypeTimeExceeded ipv6_ICMPTypePacketTooBig].
    + destruct (ver =? 4).
      { destruct (Z.eqb_spec n 3) as [->|]; simpl.
        - destruct (code =? 0); [discriminate|].
          destruct (code =? 1); discriminate.
        - destruct (Z.eqb_spec n 11) as [->|]; simpl; [|discriminate].
          destruct (code =? 0); discriminate. }
      destruct (ver =? 6); discriminate.
    + destruct (ver =? 4); [discriminate|].
      destruct (Z.eqb_spec ver 6) as [->|]; [|discriminate].
      destruct (Z.eqb_spec n 1) as [->|]; simpl.
      { destruct (code =? 0); [discriminate|].
        destruct (code =? 3); discriminate. }
      destruct (Z.eqb_spec n 3) as [->|]; simpl.
      { destruct (code =? 0); discriminate. }
      destruct (Z.eqb_spec n 2) as [->|]; simpl; [auto | discriminate].
  - intros [-> ->]. reflexivity.
Qed.

Lemma convertICMPError_panics_only_PacketTooBig_witness :
  convertICMPError (parsed_message ipv6_ICMPTypePacketTooBig 0 1280 (Some [96; 0]))
    [32; 1; 13; 184; 0; 0; 0; 0; 0; 0; 0; 0; 0; 0; 0; 1] 6
  = Panics.
Proof.
  apply (proj2 (convertICMPError_panics_only_PacketTooBig
                  ipv6_ICMPTypePacketTooBig 0 1280 (Some [96; 0])
                  [32; 1; 13; 184; 0; 0; 0; 0; 0; 0; 0; 0; 0; 0; 0; 1] 6)).
  split; reflexivity.
Defined.

Section ForwardICMPFacts.

Variable parse : list Z -> Z -> (string * string * Z) + error.

(** The walk of [ForwardICMP] adds one call for every entry whose
    association has ICMP feedback on and the socket the packet came
    from, in the order of the walk. *)
Lemma ForwardICMP_walk (code : UDPErrorType) (ipSrc ipDst : string)
    (reporter : option SocksAddr) (l : list (Z * udpAssociation))
    (acc : list IcmpDown) :
  Range_entries
    (fun key ua calls =>
       if negb (ua_icmpOn ua) then (true, calls)
       else if negb (String.eqb (ua_udp_LocalAddr ua) ipSrc) then (true, calls)
       else (true,
             calls ++ [ {| down_assoc := key; down_code := code;
                           down_ipSrc := ipSrc; down_ipDst := ipDst;
                           down_reporter := reporter |} ]))
    l acc
  = acc ++ map (fun kv => icmp_down code ipSrc ipDst reporter (fst kv))
             (List.filter
                (fun kv => ua_icmpOn (snd kv)
                           && String.eqb (ua_udp_LocalAddr (snd kv)) ipSrc)
                l).
Proof.
  revert acc. induction l as [|[k ua] l IH]; intros acc.
  - simpl. now rewrite app_nil_r.
  - cbn [Range_entries List.filter fst snd].
    destruct (ua_icmpOn ua); cbn [negb andb]; [|apply IH].
    destruct (String.eqb (ua_udp_LocalAddr ua) ipSrc); cbn [negb];
      [|apply IH].
    rewrite IH. cbn [map fst]. now rewrite <- app_assoc.
Qed.

Lemma NoDup_fst_filter {A B : Type} (p : A * B -> bool) (l : list (A * B)) :
  NoDup (map fst l) -> NoDup (map fst (List.filter p l)).
Proof.
  induction l as [|x l IH]; intros Hnd; [constructor|].
  simpl in Hnd. apply NoDup_cons in Hnd as [Hx Hnd].
  simpl. destruct (p x); [|now apply IH].
  simpl. apply NoDup_cons. split; [|now apply IH].
  intros Hin. apply Hx. apply list_elem_of_In.
  apply list_elem_of_In in Hin. apply in_map_iff in Hin as [y [Hy Hin]].
  apply filter_In in Hin as [Hin _]. apply in_map_iff. eauto.
Qed.

Lemma map_fst_fmap {A B : Type} (l : list (A * B)) : map fst l = l.*1.
Proof. induction l as [|x l IH]; simpl; [reflexivity | now rewrite IH]. Qed.

(** X7: [ForwardICMP] sends nothing when the conversion gives a nil
    header, when the embedded header does not parse, or when the
    embedded packet is not UDP (protocol 17), whatever the associations
    are; in particular for every code of a handled ICMP type that the
    table does not list. *)
Theorem ForwardICMP_silent (maps : WorkerMaps) (msg : Message) (ip : list Z)
    (ver : Z) (code : UDPErrorType) (reporter : option SocksAddr)
    (hdr : option (list Z)) :
  convertICMPError msg ip ver = Returns (code, reporter, hdr) ->
  (hdr = None \/
   (exists h e, hdr = Some h /\ parse h ver = inr e) \/
   (exists h src dst proto,
      hdr = Some h /\ parse h ver = inl (src, dst, proto) /\ proto <> 17)) ->
  ForwardICMP parse maps msg ip ver = Returns [].
Proof.
  intros Hconv Hcase. unfold ForwardICMP. rewrite Hconv.
  destruct Hcase as [->|[[h [e [-> He]]]|[h [src [dst [proto [-> [Hp Hne]]]]]]]].
  - reflexivity.
  - now rewrite He.
  - rewrite Hp. destruct (Z.eqb_spec proto 17); [contradiction|reflexivity].
Qed.

(** X8: when the converted error has a header that parses as a UDP
    packet, [ForwardICMP] hands the error to exactly the associations
    that have ICMP feedback on and whose UDP socket is the source of the
    embedded packet: each of them once, each with the converted code,
    the source and destination of the embedded packet and the reporter,
    and no other association. *)
Theorem ForwardICMP_delivers (maps : WorkerMaps) (msg : Message) (ip : list Z)
    (ver : Z) (code : UDPErrorType) (reporter : option SocksAddr)
    (hdr : list Z) (src dst : string) :
  convertICMPError msg ip ver = Returns (code, reporter, Some hdr) ->
  parse hdr ver = inl (src, dst, 17) ->
  exists calls,
    ForwardICMP parse maps msg ip ver = Returns calls /\
    (forall call, In call calls <->
       call = icmp_down code src dst reporter (down_assoc call) /\
       exists ua, udpAssociations maps !! down_assoc call = Some ua /\
                  ua_icmpOn ua = true /\ ua_udp_LocalAddr ua = src) /\
    NoDup (map down_assoc calls).
Proof.
  intros Hconv Hp. unfold ForwardICMP. rewrite Hconv, Hp. cbn [Z.eqb negb].
  change (17 =? 17) with true. cbn [negb].
  unfold SyncMap_Range. rewrite ForwardICMP_walk. cbn [app].
  eexists. split; [reflexivity|]. split.
  - intros call. rewrite in_map_iff. split.
    + intros [[k ua] [<- Hin]]. apply filter_In in Hin as [Hin Hf].
      cbn [fst snd] in *. apply andb_true_iff in Hf as [Hon Haddr].
      apply String.eqb_eq in Haddr.
      split; [reflexivity|]. exists ua. cbn [icmp_down down_assoc].
      split; [|auto].
      apply elem_of_map_to_list. now apply list_elem_of_In.
    + intros [Hcall [ua [Hua [Hon Haddr]]]].
      exists (down_assoc call, ua). split; [now rewrite Hcall at 2|].
      apply filter_In. split.
      * apply list_elem_of_In. now apply elem_of_map_to_list.
      * cbn [fst snd]. rewrite Hon. apply String.eqb_eq in Haddr.
        now rewrite Haddr.
  - rewrite map_map. cbn [icmp_down down_assoc].
    change (fun x : Z * udpAssociation => fst x) with (@fst Z udpAssociation).
    apply NoDup_fst_filter. rewrite map_fst_fmap.
    apply NoDup_fst_map_to_list.
Qed.

End ForwardICMPFacts.

Lemma ForwardICMP_silent_witness :
  ForwardICMP sample_header_parser sample_maps
    (parsed_message ipv4_ICMPTypeDestinationUnreachable 5 0 (Some [17]))
    [192; 0; 2; 1] 4
  = Returns [].
Proof.
  exact (ForwardICMP_silent sample_header_parser sample_maps
           (parsed_message ipv4_ICMPTypeDestinationUnreachable 5 0 (Some [17]))
           [192; 0; 2; 1] 4 UDPErrorType_0 None None eq_refl
           (or_introl eq_refl)).
Defined.

Lemma ForwardICMP_delivers_witness :
  exists calls,
    ForwardICMP sample_header_parser sample_maps
      (parsed_message ipv4_ICMPTypeDestinationUnreachable 1 0 (Some [17]))
      [192; 0; 2; 1] 4
    = Returns calls /\
    (forall call, In call calls <->
       call = icmp_down UDPErrorHostUnreachable "10.0.0.1:5000" "192.0.2.7:53"
                (reporter4 [192; 0; 2; 1]) (down_assoc call) /\
       exists ua, udpAssociations sample_maps !! down_assoc call = Some ua /\
                  ua_icmpOn ua = true /\
                  ua_udp_LocalAddr ua = "10.0.0.1:5000"%string) /\
    NoDup (map down_assoc calls).
Proof.
  exact (ForwardICMP_delivers sample_header_parser sample_maps
           (parsed_message ipv4_ICMPTypeDestinationUnreachable 1 0 (Some [17]))
           [192; 0; 2; 1] 4 UDPErrorHostUnreachable
           (reporter4 [192; 0; 2; 1]) [17] "10.0.0.1:5000" "192.0.2.7:53"
           eq_refl eq_refl).
Defined.

(** ** Resource reaper: what a walk leaves *)

(** The walk over the associations leaves no reservation it did not
    find. *)
Lemma Range_reap_association_reserved_Some (l : list (Z * udpAssociation))
    (s : WorkerMaps) (pair : string) (id : Z) :
  reservedUdpAddr (Range_entries reap_association l s) !! pair = Some id ->
  reservedUdpAddr s !! pair = Some id.
Proof.
  revert s. induction l as [|[k v] l IH]; intros s; [done|].
  rewrite Range_reap_association_cons. destruct (ua_alive v); [apply IH|].
  intros H. apply IH in H. simpl in H.
  apply lookup_delete_Some in H as [_ H]. exact H.
Qed.

(** The lookups after one walk, map by map. *)
Lemma reaper_tick_lookup (s : WorkerMaps) :
  (forall key,
     backlogWorker (reaper_tick s) !! key
     = match backlogWorker s !! key with
       | Some bl => if bl_alive bl then Some bl else None
       | None => None
       end) /\
  (forall id,
     udpAssociations (reaper_tick s) !! id
     = match udpAssociations s !! id with
       | Some ua => if ua_alive ua then Some ua else None
       | None => None
       end) /\
  (forall id ua, udpAssociations s !! id = Some ua -> ua_alive ua = false ->
     reservedUdpAddr (reaper_tick s) !! ua_pair ua = None) /\
  (forall pair,
     (forall id ua, udpAssociations s !! id = Some ua -> ua_alive ua = false ->
        ua_pair ua <> pair) ->
     reservedUdpAddr (reaper_tick s) !! pair = reservedUdpAddr s !! pair) /\
  (forall pair id, reservedUdpAddr (reaper_tick s) !! pair = Some id ->
     reservedUdpAddr s !! pair = Some id).
Proof.
  unfold reaper_tick, SyncMap_Range.
  set (s1 := Range_entries reap_backlog (map_to_list (backlogWorker s)) s).
  assert (Hres1 : reservedUdpAddr s1 = reservedUdpAddr s)
    by apply Range_reap_backlog_others.
  assert (Hudp1 : udpAssociations s1 = udpAssociations s)
    by apply Range_reap_backlog_others.
  rewrite Hudp1.
  split; [|split; [|split; [|split]]].
  - intros key. rewrite Range_reap_association_others. subst s1.
    destruct (backlogWorker s !! key) as [bl|] eqn:Hkey.
    + destruct (bl_alive bl) eqn:Ebl.
      * rewrite Range_reap_backlog_alive; [exact Hkey|].
        intros bl' Hin. apply elem_of_map_to_list in Hin. congruence.
      * apply Range_reap_backlog_dead with bl; [|exact Ebl].
        now apply elem_of_map_to_list.
    + now apply Range_reap_backlog_None.
  - intros id. destruct (udpAssociations s !! id) as [ua|] eqn:Hid.
    + destruct (ua_alive ua) eqn:Eua.
      * rewrite Range_reap_association_alive; [now rewrite Hudp1|].
        intros ua' Hin. apply elem_of_map_to_list in Hin. congruence.
      * apply Range_reap_association_dead with ua; [|exact Eua].
        now apply elem_of_map_to_list.
    + apply Range_reap_association_None. now rewrite Hudp1.
  - intros id ua Hid Hdead.
    apply (Range_reap_association_dead _ s1 id ua); [|exact Hdead].
    now apply elem_of_map_to_list.
  - intros pair Hpair.
    rewrite Range_reap_association_reserved; [now rewrite Hres1|].
    intros id ua Hin. apply elem_of_map_to_list in Hin. now apply (Hpair id).
  - intros pair id H. apply Range_reap_association_reserved_Some in H.
    now rewrite Hres1 in H.
Qed.

Lemma WorkerMaps_eq (s t : WorkerMaps) :
  backlogWorker s = backlogWorker t ->
  reservedUdpAddr s = reservedUdpAddr t ->
  udpAssociations s = udpAssociations t ->
  s = t.
Proof. destruct s, t. simpl. now intros -> -> ->. Qed.

(** X9: a walk of the reaper only removes.  Every worker and association
    left after it was there before with the same value and is alive,
    every reservation left was there before with the same value, and a
    second walk right after the first changes nothing. *)
Theorem reaper_tick_idempotent (s : WorkerMaps) :
  (forall key bl, backlogWorker (reaper_tick s) !! key = Some bl ->
     backlogWorker s !! key = Some bl /\ bl_alive bl = true) /\
  (forall id ua, udpAssociations (reaper_tick s) !! id = Some ua ->
     udpAssociations s !! id = Some ua /\ ua_alive ua = true) /\
  (forall pair id, reservedUdpAddr (reaper_tick s) !! pair = Some id ->
     reservedUdpAddr s !! pair = Some id) /\
  reaper_tick (reaper_tick s) = reaper_tick s.
Proof.
  destruct (reaper_tick_lookup s) as [Hbl [Hua [_ [_ Hres]]]].
  assert (Hbl' : forall key bl, backlogWorker (reaper_tick s) !! key = Some bl ->
                   backlogWorker s !! key = Some bl /\ bl_alive bl = true).
  { intros key bl. rewrite Hbl.
    destruct (backlogWorker s !! key) as [bl'|]; [|discriminate].
    destruct (bl_alive bl') eqn:E; [|discriminate].
    intros [= <-]. auto. }
  assert (Hua' : forall id ua, udpAssociations (reaper_tick s) !! id = Some ua ->
                   udpAssociations s !! id = Some ua /\ ua_alive ua = true).
  { intros id ua. rewrite Hua.
    destruct (udpAssociations s !! id) as [ua'|]; [|discriminate].
    destruct (ua_alive ua') eqn:E; [|discriminate].
    intros [= <-]. auto. }
  split; [exact Hbl'|]. split; [exact Hua'|]. split; [exact Hres|].
  - destruct (reaper_tick_lookup (reaper_tick s)) as [Hbl2 [Hua2 [_ [Hkeep2 _]]]].
    apply WorkerMaps_eq.
    + apply map_eq. intros key. rewrite Hbl2.
      destruct (backlogWorker (reaper_tick s) !! key) as [bl|] eqn:E;
        [|reflexivity].
      destruct (Hbl' key bl E) as [_ ->]. reflexivity.
    + apply map_eq. intros pair. apply Hkeep2.
      intros id ua Hid Hdead. destruct (Hua' id ua Hid) as [_ Halive].
      congruence.
    + apply map_eq. intros id. rewrite Hua2.
      destruct (udpAssociations (reaper_tick s) !! id) as [ua|] eqn:E;
        [|reflexivity].
      destruct (Hua' id ua E) as [_ ->]. reflexivity.
Qed.

Lemma reaper_tick_idempotent_witness :
  udpAssociations sample_maps !! 12 = Some busy_association /\
  ua_alive busy_association = true.
Proof.
  apply (proj1 (proj2 (reaper_tick_idempotent sample_maps)) 12
           busy_association).
  vm_compute. reflexivity.
Defined.

(** X10: the reaper never clears an alive flag, so however many ticks its
    loop takes, a worker or an association whose flag is set stays in its
    map as it is; and an entry whose flag is not set is gone for good
    after the first tick. *)
Theorem ClearUnusedResource_keeps_alive (sel : list ReaperSelect)
    (s : WorkerMaps) :
  (forall key bl, backlogWorker s !! key = Some bl -> bl_alive bl = true ->
     backlogWorker (snd (ClearUnusedResource sel s)) !! key = Some bl) /\
  (forall id ua, udpAssociations s !! id = Some ua -> ua_alive ua = true ->
     udpAssociations (snd (ClearUnusedResource sel s)) !! id = Some ua) /\
  (forall key bl rest, sel = TickC :: rest ->
     backlogWorker s !! key = Some bl -> bl_alive bl = false ->
     backlogWorker (snd (ClearUnusedResource sel s)) !! key = None) /\
  (forall id ua rest, sel = TickC :: rest ->
     udpAssociations s !! id = Some ua -> ua_alive ua = false ->
     udpAssociations (snd (ClearUnusedResource sel s)) !! id = None).
Proof.
  assert (Hgone : forall sel s,
            (forall key, backlogWorker s !! key = None ->
               backlogWorker (snd (ClearUnusedResource sel s)) !! key = None) /\
            (forall id, udpAssociations s !! id = None ->
               udpAssociations (snd (ClearUnusedResource sel s)) !! id = None)).
  { clear. intros sel. induction sel as [|[|] sel IH]; intros s; [done | | done].
    destruct (reaper_tick_lookup s) as [Hbl [Hua _]].
    destruct (IH (reaper_tick s)) as [IH1 IH2]. split.
    - intros key Hk. apply IH1. now rewrite Hbl, Hk.
    - intros id Hi. apply IH2. now rewrite Hua, Hi. }
  split; [|split; [|split]].
  - revert s. induction sel as [|[|] sel IH]; intros s key bl Hk Ha;
      [exact Hk | | exact Hk].
    apply IH; [|exact Ha].
    destruct (reaper_tick_lookup s) as [Hbl _]. now rewrite Hbl, Hk, Ha.
  - revert s. induction sel as [|[|] sel IH]; intros s id ua Hi Ha;
      [exact Hi | | exact Hi].
    apply IH; [|exact Ha].
    destruct (reaper_tick_lookup s) as [_ [Hua _]]. now rewrite Hua, Hi, Ha.
  - intros key bl rest -> Hk Hd. cbn [ClearUnusedResource].
    apply Hgone. destruct (reaper_tick_lookup s) as [Hbl _].
    now rewrite Hbl, Hk, Hd.
  - intros id ua rest -> Hi Hd. cbn [ClearUnusedResource].
    apply Hgone. destruct (reaper_tick_lookup s) as [_ [Hua _]].
    now rewrite Hua, Hi, Hd.
Qed.

Lemma ClearUnusedResource_keeps_alive_witness :
  udpAssociations
    (snd (ClearUnusedResource [TickC; TickC; TickC; Ctx2Done] sample_maps)) !! 12
  = Some busy_association /\
  udpAssociations
    (snd (ClearUnusedResource [TickC; TickC; TickC; Ctx2Done] sample_maps)) !! 11
  = None.
Proof.
  destruct (ClearUnusedResource_keeps_alive [TickC; TickC; TickC; Ctx2Done]
              sample_maps) as [_ [Hkeep [_ Hdrop]]].
  split.
  - exact (Hkeep 12 busy_association eq_refl eq_refl).
  - exact (Hdrop 11 idle_association [TickC; TickC; Ctx2Done] eq_refl eq_refl
             eq_refl).
Defined.

(** X11: the reservation goes with the pair, not with the association.
    When an idle association and an association in use carry the same
    pair, one walk deletes the idle one and the reservation under the
    pair, and keeps the association in use, which is then registered
    without a reservation. *)
Theorem reaper_tick_shared_pair (s : WorkerMaps) (idle busy : Z)
    (ua_idle ua_busy : udpAssociation) :
  udpAssociations s !! idle = Some ua_idle -> ua_alive ua_idle = false ->
  udpAssociations s !! busy = Some ua_busy -> ua_alive ua_busy = true ->
  ua_pair ua_idle = ua_pair ua_busy ->
  udpAssociations (reaper_tick s) !! idle = None /\
  udpAssociations (reaper_tick s) !! busy = Some ua_busy /\
  reservedUdpAddr (reaper_tick s) !! ua_pair ua_busy = None.
Proof.
  intros Hi Hdead Hb Halive Hpair.
  destruct (reaper_tick_lookup s) as [_ [Hua [Hgone _]]].
  split; [now rewrite Hua, Hi, Hdead|].
  split; [now rewrite Hua, Hb, Halive|].
  rewrite <- Hpair. exact (Hgone idle ua_idle Hi Hdead).
Qed.

Lemma reaper_tick_shared_pair_witness :
  reservedUdpAddr twin_maps !! ua_pair twin_association = Some 21 /\
  udpAssociations (reaper_tick twin_maps) !! 11 = None /\
  udpAssociations (reaper_tick twin_maps) !! 21 = Some twin_association /\
  reservedUdpAddr (reaper_tick twin_maps) !! ua_pair twin_association = None.
Proof.
  split; [reflexivity|].
  exact (reaper_tick_shared_pair twin_maps 11 21 idle_association
           twin_association eq_refl eq_refl eq_refl eq_refl eq_refl).
Defined.

(** ** Handshake driver: what a transfer guarantees *)

(** Every way the driver can return a [SocksConn]. *)
Lemma handshakeStream_Some_inv (s : ServerWorker) (inp : StreamInput)
    (conn : Conn) (prevAuth : option ServerAuthenticationResult)
    (cc : SocksConn) (cmd : Z) (aro : option ServerAuthenticationResult)
    (conn1 : Conn) :
  handshakeStream s inp conn prevAuth = (Returns (Some cc, cmd, aro), conn1) ->
  exists ar,
    aro = Some ar /\
    ParseRequestFrom inp
      (IgnoreFragmentedRequest s
       && match prevAuth with Some _ => true | None => false end)
    = inl (Request_ cc) /\
    cmd = CommandCode (Request_ cc) /\
    is_Some (CommandHandlers s !! cmd) /\
    Session cc = SessionID ar /\
    ClientId cc = ClientName ar /\
    (forall rule, Rule s = Some rule -> rule cc = true) /\
    match prevAuth with
    | Some prev => ar = prev /\ conn1 = conn
    | None => authn s conn (Request_ cc) = (Some ar, conn1) /\ Success ar = true
    end.
Proof.
  unfold handshakeStream, handshakeStream_body.
  destruct (ParseRequestFrom inp _) as [req|err].
  2:{ destruct (handleRequestError s conn err) as [[u|] c1]; intros H;
        inversion H. }
  destruct (match AuthenticationMethodAdvertisement_InitialDataLength req with
            | Some initDataLen =>
                match io_ReadFull inp initDataLen with
                | inl data => inl (Some data)
                | inr e => inr e
                end
            | None => inl None
            end) as [initData|e]; [|intros H; inversion H].
  destruct (match prevAuth with
            | None => authn s conn req
            | Some prev => (Some prev, conn)
            end) as [[ar|] c1] eqn:Eauth; [|intros H; inversion H].
  destruct (match prevAuth with
            | None => negb (Success ar)
            | Some _ => false
            end) eqn:Esucc; [intros H; inversion H|].
  match goal with
  | |- context [negb (_ ?c)] => set (cc0 := c)
  end.
  destruct (Rule s) as [rule|] eqn:Erule.
  - destruct (rule cc0) eqn:Eallow; cbn [negb]; [|intros H; inversion H].
    destruct (CommandHandlers s !! CommandCode req) as [h|] eqn:Eh;
      intros H; inversion H; subst.
    exists ar. repeat split; eauto.
    + intros rule' [= <-]. exact Eallow.
    + destruct prevAuth as [prev|].
      * injection Eauth as <- <-. auto.
      * split; [exact Eauth|]. now destruct (Success ar).
  - destruct (CommandHandlers s !! CommandCode req) as [h|] eqn:Eh;
      intros H; inversion H; subst.
    exists ar. repeat split; eauto.
    + intros rule' [=].
    + destruct prevAuth as [prev|].
      * injection Eauth as <- <-. auto.
      * split; [exact Eauth|]. now destruct (Success ar).
Qed.

(** X12: the driver hands over a [SocksConn] only together with an
    authentication result (a successful result of this handshake, or
    the result given for the session), and only one that the rule
    allows and whose command has a handler; the [SocksConn] carries
    the client name and the session of that result, and the command code
    returned is the one of its request. *)
Theorem handshakeStream_transfer_sound (s : ServerWorker) (inp : StreamInput)
    (conn : Conn) (prevAuth : option ServerAuthenticationResult)
    (cc : SocksConn) (cmd : Z) (aro : option ServerAuthenticationResult)
    (conn1 : Conn) :
  handshakeStream s inp conn prevAuth = (Returns (Some cc, cmd, aro), conn1) ->
  exists ar,
    aro = Some ar /\
    cmd = CommandCode (Request_ cc) /\
    is_Some (CommandHandlers s !! cmd) /\
    Session cc = SessionID ar /\
    ClientId cc = ClientName ar /\
    (forall rule, Rule s = Some rule -> rule cc = true) /\
    (prevAuth = None -> Success ar = true) /\
    (forall prev, prevAuth = Some prev -> ar = prev).
Proof.
  intros H. apply handshakeStream_Some_inv in H.
  destruct H as [ar [H1 [_ [H2 [H3 [H4 [H5 [H6 H7]]]]]]]].
  exists ar. repeat split; try assumption.
  - intros ->. apply H7.
  - intros prev ->. apply H7.
Qed.

Lemma handshakeStream_transfer_sound_witness :
  exists ar,
    Some sample_result = Some ar /\
    1 = CommandCode connect_request /\
    is_Some (CommandHandlers sample_worker !! 1) /\
    [7; 7] = SessionID ar /\
    "alice"%string = ClientName ar.
Proof.
  destruct (handshakeStream_transfer_sound sample_worker connect_input
              fresh_conn None
              {| Request_ := connect_request; ClientId := "alice";
                 Session := [7; 7]; InitialData := None; StreamId := 0 |}
              1 (Some sample_result)
              (snd (handshakeStream sample_worker connect_input fresh_conn None))
              eq_refl)
    as [ar [H1 [H2 [H3 [H4 [H5 _]]]]]].
  exists ar. auto.
Defined.

(** X13: what [ServeStream] asks of its collaborators is all or nothing.
    When it returns, either the handshake returned without a [SocksConn],
    and then [ServeStream] closed the stream the handshake left and
    called nobody; or the handshake returned a [SocksConn], and then
    [ServeStream] called one command handler, the one registered for
    the command of the request, with that [SocksConn] on the stream as
    the handshake left it, and after it [SessionConnClose] with the
    session of the handshake's result, which is the session of that
    [SocksConn].  The lookup of the handler never fails: [ServeStream]
    panics only when the request has another protocol version and no
    version handler is set. *)
Theorem ServeStream_trace (s : ServerWorker) (inp : StreamInput) (conn : Conn) :
  (forall w, ServeStream s inp conn = Returns w ->
     (exists cmd aro conn1,
        handshakeStream s inp conn None = (Returns (None, cmd, aro), conn1) /\
        w = {| w_conn := Conn_Close conn1; w_trace := [] |}) \/
     (exists cc ar handler conn1,
        handshakeStream s inp conn None
        = (Returns (Some cc, CommandCode (Request_ cc), Some ar), conn1) /\
        CommandHandlers s !! CommandCode (Request_ cc) = Some handler /\
        Session cc = SessionID ar /\
        w = {| w_conn := handler cc conn1;
               w_trace := [CommandHandlerCall (CommandCode (Request_ cc)) cc;
                           SessionConnClose (SessionID ar)] |})) /\
  (ServeStream s inp conn = Panics <->
   VersionErrorHandler s = None /\
   exists ver consumed,
     ParseRequestFrom inp false = inr (ErrVersionMismatch ver consumed)).
Proof.
  unfold ServeStream.
  destruct (handshakeStream s inp conn None) as [[[[cc cmd] aro]|] conn1] eqn:Ehs.
  - split.
    + destruct cc as [cc|].
      2:{ intros w Hw. left. exists cmd, aro, conn1. split; [reflexivity|].
          destruct aro; now injection Hw as <-. }
      destruct (handshakeStream_Some_inv _ _ _ _ _ _ _ _ Ehs)
        as [ar [-> [_ [-> [[h Hh] [Hsess [_ [_ [_ Hsucc]]]]]]]]].
      intros w Hw. rewrite Hsucc in Hw. cbn [negb] in Hw.
      unfold CommandHandler in *.
      rewrite Hh in Hw. injection Hw as <-. right.
      exists cc, ar, h, conn1. auto.
    + split.
      * destruct aro as [ar|]; [|discriminate].
        destruct cc as [cc|]; [|discriminate].
        destruct (handshakeStream_Some_inv _ _ _ _ _ _ _ _ Ehs)
          as [ar' [[= <-] [_ [-> [[h Hh] [_ [_ [_ [_ Hsucc]]]]]]]]].
        rewrite Hsucc. cbn [negb]. unfold CommandHandler in *.
        rewrite Hh. discriminate.
      * intros [Hnil [ver [consumed Hp]]]. exfalso.
        unfold handshakeStream, handshakeStream_body in Ehs.
        rewrite andb_false_r, Hp in Ehs. cbn [handleRequestError] in Ehs.
        rewrite Hnil in Ehs. discriminate.
  - split; [discriminate|]. split; [|reflexivity]. intros _.
    unfold handshakeStream, handshakeStream_body in Ehs.
    rewrite andb_false_r in Ehs.
    destruct (ParseRequestFrom inp false) as [req|err].
    + exfalso.
      destruct (match AuthenticationMethodAdvertisement_InitialDataLength req with
                | Some initDataLen =>
                    match io_ReadFull inp initDataLen with
                    | inl data => inl (Some data)
                    | inr e => inr e
                    end
                | None => inl None
                end) as [initData|e]; [|discriminate].
      destruct (authn s conn req) as [[ar|] c1]; [|discriminate].
      destruct (negb (Success ar)); [discriminate|].
      destruct (match Rule s with
                | Some rule => negb (rule _)
                | None => false
                end); [discriminate|].
      destruct (CommandHandlers s !! CommandCode req); discriminate.
    + destruct err as [| | | | |ver consumed| | | | |]; try discriminate.
      cbn [handleRequestError] in Ehs.
      destruct (VersionErrorHandler s) as [h|]; [discriminate|].
      split; [reflexivity|]. eauto.
Qed.

Lemma ServeStream_trace_witness :
  exists w,
    ServeStream sample_worker connect_input fresh_conn = Returns w /\
    ((exists cmd aro conn1,
        handshakeStream sample_worker connect_input fresh_conn None
        = (Returns (None, cmd, aro), conn1) /\
        w = {| w_conn := Conn_Close conn1; w_trace := [] |}) \/
     (exists cc ar handler conn1,
        handshakeStream sample_worker connect_input fresh_conn None
        = (Returns (Some cc, CommandCode (Request_ cc), Some ar), conn1) /\
        CommandHandlers sample_worker !! CommandCode (Request_ cc)
        = Some handler /\
        Session cc = SessionID ar /\
        w = {| w_conn := handler cc conn1;
               w_trace := [CommandHandlerCall (CommandCode (Request_ cc)) cc;
                           SessionConnClose (SessionID ar)] |})).
Proof.
  eexists. split; [reflexivity|].
  apply (proj1 (ServeStream_trace sample_worker connect_input fresh_conn)).
  reflexivity.
Defined.

(** ** Handshake driver: refusals *)



(** ** Handshake driver: initial data, sessions and the replies of authn *)

(** X15: the initial data.  When the request announces initial data of a
    length other than zero and they cannot be read in full, the driver
    writes nothing, closes the stream and returns without a [SocksConn],
    and the authenticator's answer is never written.  When a
    [SocksConn] is handed over, its initial data are nil if the request
    has no such option, empty for a length of zero, else the bytes that
    were read, and its stream id is the one of the request's option, or
    zero. *)
Theorem handshakeStream_initial_data (s : ServerWorker) (inp : StreamInput)
    (conn : Conn) (prevAuth : option ServerAuthenticationResult)
    (req : Request) :
  ParseRequestFrom inp
    (IgnoreFragmentedRequest s
     && match prevAuth with Some _ => true | None => false end) = inl req ->
  (forall n e,
     AuthenticationMethodAdvertisement_InitialDataLength req = Some n ->
     n <> 0 -> initialData inp = inr e ->
     handshakeStream s inp conn prevAuth
     = (Returns (None, 0, None), Conn_Close conn)) /\
  (forall cc cmd aro conn1,
     handshakeStream s inp conn prevAuth
     = (Returns (Some cc, cmd, aro), conn1) ->
     StreamId cc = match StreamID_ID req with Some sid => sid | None => 0 end /\
     match AuthenticationMethodAdvertisement_InitialDataLength req with
     | None => InitialData cc = None
     | Some n =>
         if n =? 0 then InitialData cc = Some []
         else exists data,
                initialData inp = inl data /\ InitialData cc = Some data
     end).
Proof.
  intros Hparse. unfold handshakeStream, handshakeStream_body, io_ReadFull.
  rewrite Hparse. split.
  - intros n e -> Hn ->.
    destruct (Z.eqb_spec n 0); [contradiction|]. reflexivity.
  - intros cc cmd aro conn1.
    destruct (AuthenticationMethodAdvertisement_InitialDataLength req) as [n|].
    + destruct (n =? 0).
      * destruct (match prevAuth with
                  | None => authn s conn req
                  | Some prev => (Some prev, conn)
                  end) as [[ar|] c1]; [|intros H; inversion H].
        destruct (match prevAuth with
                  | None => negb (Success ar)
                  | Some _ => false
                  end); [intros H; inversion H|].
        destruct (match Rule s with
                  | Some rule => negb (rule _)
                  | None => false
                  end); [intros H; inversion H|].
        destruct (CommandHandlers s !! CommandCode req);
          intros H; inversion H; subst. auto.
      * destruct (initialData inp) as [data|e]; [|intros H; inversion H].
        destruct (match prevAuth with
                  | None => authn s conn req
                  | Some prev => (Some prev, conn)
                  end) as [[ar|] c1]; [|intros H; inversion H].
        destruct (match prevAuth with
                  | None => negb (Success ar)
                  | Some _ => false
                  end); [intros H; inversion H|].
        destruct (match Rule s with
                  | Some rule => negb (rule _)
                  | None => false
                  end); [intros H; inversion H|].
        destruct (CommandHandlers s !! CommandCode req);
          intros H; inversion H; subst. eauto.
    + destruct (match prevAuth with
                | None => authn s conn req
                | Some prev => (Some prev, conn)
                end) as [[ar|] c1]; [|intros H; inversion H].
      destruct (match prevAuth with
                | None => negb (Success ar)
                | Some _ => false
                end); [intros H; inversion H|].
      destruct (match Rule s with
                | Some rule => negb (rule _)
                | None => false
                end); [intros H; inversion H|].
      destruct (CommandHandlers s !! CommandCode req);
        intros H; inversion H; subst. auto.
Qed.

Lemma handshakeStream_initial_data_witness :
  handshakeStream sample_worker truncated_input fresh_conn None
  = (Returns (None, 0, None), Conn_Close fresh_conn) /\
  (StreamId
     {| Request_ := initdata_request; ClientId := "alice"; Session := [7; 7];
        InitialData := Some [1; 2; 3; 4]; StreamId := 9 |} = 9 /\
   exists data,
     initialData initdata_input = inl data /\
     InitialData
       {| Request_ := initdata_request; ClientId := "alice"; Session := [7; 7];
          InitialData := Some [1; 2; 3; 4]; StreamId := 9 |} = Some data).
Proof.
  split.
  - exact (proj1 (handshakeStream_initial_data sample_worker truncated_input
                    fresh_conn None initdata_request eq_refl)
             4 io_ErrUnexpectedEOF eq_refl ltac:(discriminate) eq_refl).
  - exact (proj2 (handshakeStream_initial_data sample_worker initdata_input
                    fresh_conn None initdata_request eq_refl)
             {| Request_ := initdata_request; ClientId := "alice";
                Session := [7; 7]; InitialData := Some [1; 2; 3; 4];
                StreamId := 9 |}
             1 (Some sample_result)
             (snd (handshakeStream sample_worker initdata_input fresh_conn None))
             eq_refl).
Defined.





(** ** Datagrams *)

(** The version handler is the only thing [handleFirstDatagram] calls. *)
Lemma handleFirstDatagram_events (handler_set : bool) (maps : WorkerMaps)
    (dgram : Datagram) (ev : DatagramEvent) :
  In ev (snd (handleFirstDatagram handler_set maps dgram)) <->
  handler_set = true /\
  exists ver consumed,
    ev = DatagramVersionErrorHandlerCall ver consumed /\
    dg_parsed dgram = inr (ErrVersionMismatch ver consumed).
Proof.
  unfold handleFirstDatagram.
  destruct (dg_parsed dgram) as [h|err].
  - destruct (udpAssociations maps !! AssociationID h) as [a|]; simpl;
      (split; [contradiction|]); intros [_ [v [c [_ H]]]]; discriminate.
  - destruct err as [| | | | |ver consumed| | | | |];
      try destruct handler_set; simpl; split;
      try contradiction;
      try (intros [_ [v [c [_ H]]]]; discriminate);
      try (intros [H _]; discriminate).
    + intros [<-|[]]. split; [reflexivity|]. do 2 eexists. split; reflexivity.
    + intros [_ [v [c [-> [= <- <-]]]]]. auto.
Qed.

(** X18: [handleFirstDatagram] returns an association and a message, or
    neither.  It returns them exactly when the datagram parses and the
    association id of the message is registered, and then they are that
    message and the association registered under its id.  The datagram
    version handler is called only for a datagram of another protocol
    version, and only if a handler is set. *)
Theorem handleFirstDatagram_result (handler_set : bool) (maps : WorkerMaps)
    (dgram : Datagram) :
  (fst (fst (handleFirstDatagram handler_set maps dgram)) = None
   <-> snd (fst (handleFirstDatagram handler_set maps dgram)) = None) /\
  (forall assoc h,
     fst (handleFirstDatagram handler_set maps dgram) = (Some assoc, Some h)
     <-> dg_parsed dgram = inl h /\
         udpAssociations maps !! AssociationID h = Some assoc) /\
  (forall ev, In ev (snd (handleFirstDatagram handler_set maps dgram)) <->
     handler_set = true /\
     exists ver consumed,
       ev = DatagramVersionErrorHandlerCall ver consumed /\
       dg_parsed dgram = inr (ErrVersionMismatch ver consumed)).
Proof.
  split; [|split; [|intros ev; apply handleFirstDatagram_events]];
    unfold handleFirstDatagram.
  - destruct (dg_parsed dgram) as [h|err].
    + destruct (udpAssociations maps !! AssociationID h) as [a|]; simpl;
        [split; discriminate | tauto].
    + destruct err; try destruct handler_set; simpl; tauto.
  - intros assoc h'.
    destruct (dg_parsed dgram) as [h|err].
    + destruct (udpAssociations maps !! AssociationID h) as [a|] eqn:Ea; simpl.
      * split.
        -- intros [= <- <-]. auto.
        -- intros [[= <-] Hl]. rewrite Ea in Hl. now injection Hl as <-.
      * split; [discriminate|].
        intros [[= <-] Hl]. rewrite Ea in Hl. discriminate.
    + destruct err; try destruct handler_set; simpl;
        (split; [discriminate | intros [H _]; discriminate]).
Qed.

Lemma handleFirstDatagram_result_witness :
  fst (handleFirstDatagram true sample_maps datagram_for_11)
  = (Some idle_association,
     Some {| AssociationID := 11; udp_payload := [1] |}).
Proof.
  apply (proj1 (proj2 (handleFirstDatagram_result true sample_maps
                         datagram_for_11))).
  split; reflexivity.
Defined.

Lemma ServeSeqPacket_loop_calls (assoc : option udpAssociation)
    (next : list (Datagram + error)) :
  (forall a m src,
     In (handleUdpUpCall a m src) (snd (ServeSeqPacket_loop assoc next)) ->
     a = assoc /\
     exists d h, In (inl d) next /\ dg_parsed d = inl h /\ m = Some h /\
                 src = dg_RemoteAddr d) /\
  (forall ver consumed,
     ~ In (DatagramVersionErrorHandlerCall ver consumed)
          (snd (ServeSeqPacket_loop assoc next))) /\
  (fst (ServeSeqPacket_loop assoc next) = true <-> Exists ends_seqpacket next).
Proof.
  induction next as [|[d|e] next [IH1 [IH2 IH3]]].
  - simpl. split; [|split].
    + intros a m src [].
    + intros ver consumed [].
    + split; [discriminate|]. intros H. inversion H.
  - cbn [ServeSeqPacket_loop]. destruct (dg_parsed d) as [h|err] eqn:Ed.
    + destruct (ServeSeqPacket_loop assoc next) as [ret evs]. simpl in *.
      split; [|split].
      * intros a m src [[= <- <- <-]|Hin].
        -- split; [reflexivity|]. exists d, h. auto.
        -- destruct (IH1 a m src Hin) as [Ha [d' [h' [Hd' Hrest]]]].
           split; [exact Ha|]. exists d', h'. tauto.
      * intros ver consumed [H|H]; [discriminate | exact (IH2 _ _ H)].
      * rewrite IH3. split.
        -- intros H. now apply Exists_cons_tl.
        -- intros H. inversion H as [? ? Hhd|]; [|assumption].
           simpl in Hhd. rewrite Ed in Hhd. destruct Hhd.
    + simpl. split; [|split].
      * intros a m src [].
      * intros ver consumed [].
      * split; [|reflexivity]. intros _. apply Exists_cons_hd. simpl.
        now rewrite Ed.
  - simpl. split; [|split].
    + intros a m src [].
    + intros ver consumed [].
    + split; [|reflexivity]. intros _. now apply Exists_cons_hd.
Qed.

(** X19: a source of sequenced datagrams is served for one association,
    the one of its first datagram.  Provided the calls of [handleUdpUp]
    return: every call is made on the association (or nil) that
    [handleFirstDatagram] gave for the first datagram, whatever
    association id the later messages carry; [ServeDatagram] makes
    exactly one such call, also with a nil association and a nil
    message; the version handler is called for the first datagram only;
    and after the first datagram [ServeSeqPacket] returns exactly when
    the source reports an error or delivers a datagram that does not
    parse. *)
Theorem ServeSeqPacket_routes (handler_set : bool) (maps : WorkerMaps)
    (d0 : Datagram) (rest : list (Datagram + error)) :
  (forall a m src,
     In (handleUdpUpCall a m src)
        (snd (ServeSeqPacket handler_set maps (inl d0 :: rest))) ->
     a = fst (fst (handleFirstDatagram handler_set maps d0))) /\
  (forall ver consumed,
     In (DatagramVersionErrorHandlerCall ver consumed)
        (snd (ServeSeqPacket handler_set maps (inl d0 :: rest))) ->
     dg_parsed d0 = inr (ErrVersionMismatch ver consumed)) /\
  (fst (ServeSeqPacket handler_set maps (inl d0 :: rest)) = true
   <-> Exists ends_seqpacket rest) /\
  ServeDatagram handler_set maps d0
  = snd (handleFirstDatagram handler_set maps d0)
    ++ [handleUdpUpCall (fst (fst (handleFirstDatagram handler_set maps d0)))
          (snd (fst (handleFirstDatagram handler_set maps d0)))
          (dg_RemoteAddr d0)].
Proof.
  pose proof (handleFirstDatagram_events handler_set maps d0) as Hev.
  unfold ServeSeqPacket, ServeDatagram.
  destruct (handleFirstDatagram handler_set maps d0) as [[assoc h] evs].
  destruct (ServeSeqPacket_loop_calls assoc rest) as [L1 [L2 L3]].
  destruct (ServeSeqPacket_loop assoc rest) as [ret evs']. simpl in *.
  split; [|split; [|split]].
  - intros a m src Hin. apply in_app_iff in Hin as [Hin|[Hin|Hin]].
    + apply Hev in Hin as [_ [v [c [H _]]]]. discriminate.
    + now injection Hin as <- _ _.
    + now apply L1 in Hin.
  - intros ver consumed Hin. apply in_app_iff in Hin as [Hin|[Hin|Hin]].
    + apply Hev in Hin as [_ [v [c [[= <- <-] H]]]]. exact H.
    + discriminate.
    + destruct (L2 _ _ Hin).
  - exact L3.
  - reflexivity.
Qed.

Lemma ServeSeqPacket_routes_witness :
  ServeSeqPacket true sample_maps
    [inl datagram_for_11; inl datagram_for_99; inl datagram_garbage]
  = (true,
     [handleUdpUpCall (Some idle_association)
        (Some {| AssociationID := 11; udp_payload := [1] |})
        "198.51.100.2:4000";
      handleUdpUpCall (Some idle_association)
        (Some {| AssociationID := 99; udp_payload := [2] |})
        "198.51.100.2:4000"]) /\
  Some idle_association
  = fst (fst (handleFirstDatagram true sample_maps datagram_for_11)).
Proof.
  split; [reflexivity|].
  apply (proj1 (ServeSeqPacket_routes true sample_maps datagram_for_11
                  [inl datagram_for_99; inl datagram_garbage])
           (Some idle_association)
           (Some {| AssociationID := 99; udp_payload := [2] |})
           "198.51.100.2:4000"%string).
  vm_compute. right. left. reflexivity.
Defined.

(** ** Multiplexed connections *)







(** ** Outbound packet sockets *)

Lemma length_4_inv (ip : list Z) :
  length ip = 4%nat -> exists a b c d, ip = [a; b; c; d].
Proof.
  destruct ip as [|a [|b [|c [|d [|e ip]]]]]; try discriminate. eauto.
Qed.

(** The three spellings of the unspecified address. *)
Lemma IsUnspecified_spec (ip : list Z) :
  IsUnspecified ip = true
  <-> ip = [0; 0; 0; 0] \/ ip = IPv4zero \/ ip = IPv6unspecified.
Proof.
  unfold IsUnspecified, IP_Equal.
  change (length IPv4zero) with 16%nat.
  change (length IPv6unspecified) with 16%nat.
  destruct (Nat.eqb_spec (length ip) 16) as [H16|H16].
  - rewrite orb_true_iff, !bool_decide_eq_true.
    split; [tauto|]. intros [->|H]; [discriminate H16 | tauto].
  - destruct (Nat.eqb_spec (length ip) 4) as [H4|H4]; cbn [andb Nat.eqb].
    + destruct (length_4_inv ip H4) as [a [b [c [d ->]]]].
      change (take 12 IPv4zero) with v4InV6Prefix.
      change (drop 12 IPv4zero) with [0; 0; 0; 0].
      rewrite orb_true_iff, !andb_true_iff, !bool_decide_eq_true.
      split.
      * intros [[_ H]|[H _]]; [auto | discriminate H].
      * intros [H|[H|H]]; [auto | discriminate H | discriminate H].
    + cbn [orb]. split; [discriminate|].
      intros [-> | [-> | ->]]; [now elim H4 | now elim H16 | now elim H16].
Qed.

(** X22: packet sockets of the standard outbound.  A domain name is
    refused with the error for unsupported address types before anything
    is resolved, and the caller's address is left as it is.  For an IP
    address the address type is kept, and the address handed to the
    resolver differs from the caller's only when the caller's is
    unspecified (0.0.0.0 in four or in sixteen bytes, or ::) and not
    multicast; it is then the default of the declared address type, the
    IPv4 default for type IPv4 and the IPv6 default otherwise, and the
    caller's address is overwritten with it.  A multicast socket is
    asked for exactly when the caller's address is multicast, on the
    configured interface; an error of the resolver is returned without
    asking for a socket. *)
Theorem ListenPacket_plan (UDPAddr : Type)
    (resolve : SocksAddr -> UDPAddr + error) (i : InternetServerOutbound)
    (addr : SocksAddr) :
  (AddressType_ addr = AddressTypeDomainName ->
   ListenPacket UDPAddr resolve i addr = (inr ErrAddressTypeNotSupport, addr)) /\
  (AddressType_ addr <> AddressTypeDomainName ->
   AddressType_ (snd (ListenPacket UDPAddr resolve i addr)) = AddressType_ addr /\
   (snd (ListenPacket UDPAddr resolve i addr) <> addr ->
    IsMulticast (Address_IP addr) = false /\
    (Address_IP addr = [0; 0; 0; 0] \/ Address_IP addr = IPv4zero \/
     Address_IP addr = IPv6unspecified) /\
    Address (snd (ListenPacket UDPAddr resolve i addr))
    = match AddressType_ addr with
      | AddressTypeIPv4 => DefaultIPv4 i
      | _ => DefaultIPv6 i
      end) /\
   (IsMulticast (Address_IP addr) = false ->
    IsUnspecified (Address_IP addr) = true ->
    Address (snd (ListenPacket UDPAddr resolve i addr))
    = match AddressType_ addr with
      | AddressTypeIPv4 => DefaultIPv4 i
      | _ => DefaultIPv6 i
      end) /\
   match fst (ListenPacket UDPAddr resolve i addr) with
   | inl (ListenMulticastUDP ifi ua) =>
       ifi = MulticastInterface i /\
       IsMulticast (Address_IP addr) = true /\
       resolve addr = inl ua
   | inl (ListenUDP ua) =>
       IsMulticast (Address_IP addr) = false /\
       resolve (snd (ListenPacket UDPAddr resolve i addr)) = inl ua
   | inr err =>
       resolve (snd (ListenPacket UDPAddr resolve i addr)) = inr err
   end).
Proof.
  split.
  - intros Hd. unfold ListenPacket. now rewrite Hd.
  - intros Hnd. unfold ListenPacket.
    destruct (IsMulticast (Address_IP addr)) eqn:Em.
    + destruct (AddressType_ addr) eqn:Et; [| |contradiction];
        destruct (resolve addr) as [ua|err] eqn:Er; cbn [fst snd];
        repeat split; try congruence; try discriminate.
    + destruct (IsUnspecified (Address_IP addr)) eqn:Eu.
      * apply IsUnspecified_spec in Eu.
        destruct (AddressType_ addr) eqn:Et; [| |contradiction];
          match goal with
          | |- context [resolve ?a] =>
              destruct (resolve a) as [ua|err] eqn:Er
          end; cbn [fst snd AddressType_ Address];
          repeat split; try congruence; try discriminate; auto.
      * destruct (AddressType_ addr) eqn:Et; [| |contradiction];
          destruct (resolve addr) as [ua|err] eqn:Er; cbn [fst snd];
          repeat split; try congruence; try discriminate.
Qed.

Lemma ListenPacket_plan_witness :
  ListenPacket SocksAddr echo_resolver sample_outbound
    {| AddressType_ := AddressTypeDomainName; Address := Some [119; 119; 119] |}
  = (inr ErrAddressTypeNotSupport,
     {| AddressType_ := AddressTypeDomainName; Address := Some [119; 119; 119] |}) /\
  Address (snd (ListenPacket SocksAddr echo_resolver sample_outbound
                  {| AddressType_ := AddressTypeIPv6;
                     Address := Some [0; 0; 0; 0] |}))
  = DefaultIPv6 sample_outbound.
Proof.
  split.
  - exact (proj1 (ListenPacket_plan SocksAddr echo_resolver sample_outbound
                    {| AddressType_ := AddressTypeDomainName;
                       Address := Some [119; 119; 119] |}) eq_refl).
  - destruct (proj2 (ListenPacket_plan SocksAddr echo_resolver sample_outbound
                       {| AddressType_ := AddressTypeIPv6;
                          Address := Some [0; 0; 0; 0] |})
                ltac:(discriminate)) as [_ [_ [H _]]].
    exact (H eq_refl eq_refl).
Defined.

(** ** The shadowsocks server's authenticator *)

(** X23: the authenticator of the shadowsocks server asks the one it
    embeds only for a request whose tick option is there with a time at
    most one minute ahead of the first clock reading and at most one
    minute behind the second, and which has both token options; then it
    returns that authenticator's answer.  Every other request gets the
    bare refusal and a nil handle.  And in every case it has closed the
    stream, once, exactly when the result it returns is a final refusal
    (neither success nor continue). *)
Theorem ssServerAuth_Authenticate_window (default : ServerAuthenticator)
    (now1 now2 : Z) (conn : Conn) (req : Request) (opts : SSOptions) :
  ((exists t, SSTick_Time opts = Some t /\
              now2 - time_Minute <= t <= now1 + time_Minute /\
              has_IdempotenceExpenditure opts = true /\
              has_TokenRequest opts = true) ->
   fst (ssServerAuth_Authenticate default now1 now2 conn req opts)
   = (fst (Authenticate default req), Some (snd (Authenticate default req)))) /\
  (~ (exists t, SSTick_Time opts = Some t /\
                now2 - time_Minute <= t <= now1 + time_Minute /\
                has_IdempotenceExpenditure opts = true /\
                has_TokenRequest opts = true) ->
   fst (ssServerAuth_Authenticate default now1 now2 conn req opts)
   = (ss_refusal, None)) /\
  calls (snd (ssServerAuth_Authenticate default now1 now2 conn req opts))
  = calls conn
    ++ (if Success (fst (fst (ssServerAuth_Authenticate default now1 now2
                                conn req opts)))
           || Continue (fst (fst (ssServerAuth_Authenticate default now1 now2
                                    conn req opts)))
        then [] else [Closed]).
Proof.
  unfold ssServerAuth_Authenticate.
  destruct (SSTick_Time opts) as [t|].
  2:{ split; [intros [t [H _]]; discriminate|]. split; reflexivity. }
  destruct (Z.ltb_spec (now1 + time_Minute) t) as [Hy|Hy]; cbn [orb].
  { split; [intros [t' [[= <-] [H _]]]; lia|]. split; reflexivity. }
  destruct (Z.ltb_spec (t + time_Minute) now2) as [Ho|Ho].
  { split; [intros [t' [[= <-] [H _]]]; lia|]. split; reflexivity. }
  destruct (has_IdempotenceExpenditure opts); cbn [negb orb].
  2:{ split; [intros [t' [_ [_ [H _]]]]; discriminate|]. split; reflexivity. }
  destruct (has_TokenRequest opts); cbn [negb].
  2:{ split; [intros [t' [_ [_ [_ H]]]]; discriminate|]. split; reflexivity. }
  destruct (Authenticate default req) as [sar sac]. cbn [fst snd].
  split; [|split].
  - intros _. destruct (negb (Success sar) && negb (Continue sar)); reflexivity.
  - intros Hn. exfalso. apply Hn. exists t. repeat split; lia.
  - destruct (Success sar) eqn:Hs, (Continue sar) eqn:Hc;
      cbn [negb andb orb fst snd]; rewrite ?Hs, ?Hc; cbn [orb];
      rewrite ?app_nil_r; reflexivity.
Qed.

Lemma ssServerAuth_Authenticate_window_witness :
  fst (ssServerAuth_Authenticate sample_auth 1000 1001 fresh_conn
         connect_request
         {| SSTick_Time := Some (1000 - time_Minute);
            has_IdempotenceExpenditure := true; has_TokenRequest := true |})
  = (ss_refusal, None) /\
  fst (ssServerAuth_Authenticate sample_auth 1000 1001 fresh_conn
         connect_request
         {| SSTick_Time := Some (1001 - time_Minute);
            has_IdempotenceExpenditure := true; has_TokenRequest := true |})
  = (sample_result, Some 0%nat).
Proof.
  split.
  - apply (proj1 (proj2 (ssServerAuth_Authenticate_window sample_auth 1000 1001
                           fresh_conn connect_request
                           {| SSTick_Time := Some (1000 - time_Minute);
                              has_IdempotenceExpenditure := true;
                              has_TokenRequest := true |}))).
    intros [t [[= <-] [H _]]]. unfold time_Minute in H. lia.
  - apply (proj1 (ssServerAuth_Authenticate_window sample_auth 1000 1001
                    fresh_conn connect_request
                    {| SSTick_Time := Some (1001 - time_Minute);
                       has_IdempotenceExpenditure := true;
                       has_TokenRequest := true |})).
    exists (1001 - time_Minute). unfold time_Minute. cbn [SSTick_Time
      has_IdempotenceExpenditure has_TokenRequest].
    repeat split; lia.
Defined.

(** ** Random numbers *)

Lemma lor_shiftl_add (lo hi k : Z) :
  0 <= k -> 0 <= lo < 2 ^ k ->
  Z.lor lo (Z.shiftl hi k) = lo + hi * 2 ^ k.
Proof.
  intros Hk Hlo.
  pose proof (Z.add_lor_land lo (Z.shiftl hi k)) as Hadd.
  assert (Hland : Z.land lo (hi * 2 ^ k) = 0).
  { apply Z.bits_inj'. intros n Hn. rewrite Z.land_spec, Z.bits_0.
    destruct (Z.lt_ge_cases n k) as [Hlt|Hge].
    - rewrite Z.mul_pow2_bits_low by exact Hlt. apply andb_false_r.
    - rewrite <- (Z.mod_small lo (2 ^ k)) by exact Hlo.
      rewrite Z.mod_pow2_bits_high by lia. reflexivity. }
  rewrite Z.shiftl_mul_pow2 in * by exact Hk. rewrite Hland in Hadd. lia.
Qed.

Lemma length_2_bytes (b : list Z) :
  is_bytes 2 b ->
  exists b0 b1, b = [b0; b1] /\ 0 <= b0 < 256 /\ 0 <= b1 < 256.
Proof.
  intros [Hl Hb]. destruct b as [|b0 [|b1 [|b2 b]]]; try discriminate.
  inversion Hb as [|? ? H0 Hb1]; subst. inversion Hb1; subst. eauto.
Qed.

Lemma length_4_bytes (b : list Z) :
  is_bytes 4 b ->
  exists b0 b1 b2 b3,
    b = [b0; b1; b2; b3] /\
    0 <= b0 < 256 /\ 0 <= b1 < 256 /\ 0 <= b2 < 256 /\ 0 <= b3 < 256.
Proof.
  intros [Hl Hb].
  destruct b as [|b0 [|b1 [|b2 [|b3 [|b4 b]]]]]; try discriminate.
  repeat match goal with
         | H : Forall _ (_ :: _) |- _ => inversion H; clear H; subst
         end.
  do 4 eexists. split; [reflexivity|]. auto.
Qed.

Lemma length_8_bytes (b : list Z) :
  is_bytes 8 b ->
  exists b0 b1 b2 b3 b4 b5 b6 b7,
    b = [b0; b1; b2; b3; b4; b5; b6; b7] /\
    0 <= b0 < 256 /\ 0 <= b1 < 256 /\ 0 <= b2 < 256 /\ 0 <= b3 < 256 /\
    0 <= b4 < 256 /\ 0 <= b5 < 256 /\ 0 <= b6 < 256 /\ 0 <= b7 < 256.
Proof.
  intros [Hl Hb].
  destruct b as [|b0 [|b1 [|b2 [|b3 [|b4 [|b5 [|b6 [|b7 [|b8 b]]]]]]]]];
    try discriminate.
  repeat match goal with
         | H : Forall _ (_ :: _) |- _ => inversion H; clear H; subst
         end.
  do 8 eexists. split; [reflexivity|]. repeat split; lia.
Qed.

(** The three decoders read the number their bytes spell. *)
Lemma BigEndian_big_endian (b : list Z) :
  (is_bytes 2 b -> BigEndian_Uint16 b = big_endian b) /\
  (is_bytes 4 b -> BigEndian_Uint32 b = big_endian b) /\
  (is_bytes 8 b -> BigEndian_Uint64 b = big_endian b).
Proof.
  split; [|split]; intros Hb.
  - destruct (length_2_bytes b Hb) as [b0 [b1 [-> [H0 H1]]]].
    unfold BigEndian_Uint16, big_endian. cbn [nth fold_left].
    rewrite lor_shiftl_add by lia. lia.
  - destruct (length_4_bytes b Hb)
      as [b0 [b1 [b2 [b3 [-> [H0 [H1 [H2 H3]]]]]]]].
    unfold BigEndian_Uint32, big_endian. cbn [nth fold_left].
    rewrite (lor_shiftl_add b3 b2 8) by lia.
    rewrite (lor_shiftl_add _ b1 16) by lia.
    rewrite (lor_shiftl_add _ b0 24) by lia. lia.
  - destruct (length_8_bytes b Hb)
      as [b0 [b1 [b2 [b3 [b4 [b5 [b6 [b7
           [-> [H0 [H1 [H2 [H3 [H4 [H5 [H6 H7]]]]]]]]]]]]]]]].
    unfold BigEndian_Uint64, big_endian. cbn [nth fold_left].
    rewrite (lor_shiftl_add b7 b6 8) by lia.
    rewrite (lor_shiftl_add _ b5 16) by lia.
    rewrite (lor_shiftl_add _ b4 24) by lia.
    rewrite (lor_shiftl_add _ b3 32) by lia.
    rewrite (lor_shiftl_add _ b2 40) by lia.
    rewrite (lor_shiftl_add _ b1 48) by lia.
    rewrite (lor_shiftl_add _ b0 56) by lia. lia.
Qed.

Lemma big_endian_peel (a a' x x' : Z) :
  0 <= x < 256 -> 0 <= x' < 256 ->
  a * 256 + x = a' * 256 + x' -> a = a' /\ x = x'.
Proof. lia. Qed.

(** X24: when the system's source of random bytes fills the slice, each
    of [RandUint16], [RandUint32] and [RandUint64] returns the number
    those bytes spell, most significant byte first, and that number fits
    the width of the result; when the source reports an error, each of
    them panics. *)
Theorem RandUint_value (rand_Read : nat -> list Z + error) :
  (forall b, rand_Read 2%nat = inl b -> is_bytes 2 b ->
     RandUint16 rand_Read = Returns (big_endian b) /\
     0 <= big_endian b < 2 ^ 16) /\
  (forall b, rand_Read 4%nat = inl b -> is_bytes 4 b ->
     RandUint32 rand_Read = Returns (big_endian b) /\
     0 <= big_endian b < 2 ^ 32) /\
  (forall b, rand_Read 8%nat = inl b -> is_bytes 8 b ->
     RandUint64 rand_Read = Returns (big_endian b) /\
     0 <= big_endian b < 2 ^ 64) /\
  (forall e, rand_Read 2%nat = inr e -> RandUint16 rand_Read = Panics) /\
  (forall e, rand_Read 4%nat = inr e -> RandUint32 rand_Read = Panics) /\
  (forall e, rand_Read 8%nat = inr e -> RandUint64 rand_Read = Panics).
Proof.
  split; [|split; [|split; [|split; [|split]]]].
  - intros b Hr Hb. unfold RandUint16, RandBytes. rewrite Hr.
    rewrite (proj1 (BigEndian_big_endian b) Hb). split; [reflexivity|].
    destruct (length_2_bytes b Hb) as [b0 [b1 [-> [H0 H1]]]].
    unfold big_endian. cbn [fold_left]. lia.
  - intros b Hr Hb. unfold RandUint32, RandBytes. rewrite Hr.
    rewrite (proj1 (proj2 (BigEndian_big_endian b)) Hb). split; [reflexivity|].
    destruct (length_4_bytes b Hb)
      as [b0 [b1 [b2 [b3 [-> [H0 [H1 [H2 H3]]]]]]]].
    unfold big_endian. cbn [fold_left]. lia.
  - intros b Hr Hb. unfold RandUint64, RandBytes. rewrite Hr.
    rewrite (proj2 (proj2 (BigEndian_big_endian b)) Hb). split; [reflexivity|].
    destruct (length_8_bytes b Hb)
      as [b0 [b1 [b2 [b3 [b4 [b5 [b6 [b7
           [-> [H0 [H1 [H2 [H3 [H4 [H5 [H6 H7]]]]]]]]]]]]]]]].
    unfold big_endian. cbn [fold_left]. lia.
  - intros e Hr. unfold RandUint16, RandBytes. now rewrite Hr.
  - intros e Hr. unfold RandUint32, RandBytes. now rewrite Hr.
  - intros e Hr. unfold RandUint64, RandBytes. now rewrite Hr.
Qed.

Lemma RandUint_value_witness :
  RandUint16 counting_entropy = Returns 258 /\
  RandUint32 counting_entropy = Returns 16909060 /\
  RandUint64 failing_entropy = Panics.
Proof.
  split; [|split].
  - apply (proj1 (RandUint_value counting_entropy) [1; 2]);
      [reflexivity | split; [reflexivity | repeat constructor; lia]].
  - apply (proj1 (proj2 (RandUint_value counting_entropy)) [1; 2; 3; 4]);
      [reflexivity | split; [reflexivity | repeat constructor; lia]].
  - apply (proj2 (proj2 (proj2 (proj2 (proj2
             (RandUint_value failing_entropy)))))
             (errorString "entropy unavailable")).
    reflexivity.
Defined.

(** X25: [RandUint64] loses none of the randomness it reads: two calls
    that return the same number were given the same eight bytes. *)
Theorem RandUint64_injective (read1 read2 : nat -> list Z + error)
    (b1 b2 : list Z) :
  read1 8%nat = inl b1 -> is_bytes 8 b1 ->
  read2 8%nat = inl b2 -> is_bytes 8 b2 ->
  RandUint64 read1 = RandUint64 read2 ->
  b1 = b2.
Proof.
  intros Hr1 Hb1 Hr2 Hb2. unfold RandUint64, RandBytes. rewrite Hr1, Hr2.
  rewrite (proj2 (proj2 (BigEndian_big_endian b1)) Hb1).
  rewrite (proj2 (proj2 (BigEndian_big_endian b2)) Hb2).
  intros [= Heq]. revert Heq.
  destruct (length_8_bytes b1 Hb1)
    as [x0 [x1 [x2 [x3 [x4 [x5 [x6 [x7
         [-> [H0 [H1 [H2 [H3 [H4 [H5 [H6 H7]]]]]]]]]]]]]]]].
  destruct (length_8_bytes b2 Hb2)
    as [y0 [y1 [y2 [y3 [y4 [y5 [y6 [y7
         [-> [G0 [G1 [G2 [G3 [G4 [G5 [G6 G7]]]]]]]]]]]]]]]].
  unfold big_endian. cbn [fold_left]. intros Heq.
  apply big_endian_peel in Heq as [Heq ->]; [|assumption|assumption].
  apply big_endian_peel in Heq as [Heq ->]; [|assumption|assumption].
  apply big_endian_peel in Heq as [Heq ->]; [|assumption|assumption].
  apply big_endian_peel in Heq as [Heq ->]; [|assumption|assumption].
  apply big_endian_peel in Heq as [Heq ->]; [|assumption|assumption].
  apply big_endian_peel in Heq as [Heq ->]; [|assumption|assumption].
  apply big_endian_peel in Heq as [Heq ->]; [|assumption|assumption].
  apply big_endian_peel in Heq as [_ ->]; [|assumption|assumption].
  reflexivity.
Qed.

Lemma RandUint64_injective_witness :
  map Z.of_nat (seq 1 8) = [1; 2; 3; 4; 5; 6; 7; 8].
Proof.
  apply (RandUint64_injective counting_entropy
           (fun _ => inl [1; 2; 3; 4; 5; 6; 7; 8])).
  - reflexivity.
  - split; [reflexivity | repeat constructor; lia].
  - reflexivity.
  - split; [reflexivity | repeat constructor; lia].
  - reflexivity.
Defined.
